(** * Verification of the storage helpers of Webext-Template-Svelte

    The first part embeds the code:

    - [JS]: the JavaScript values the helpers handle;
    - [Sanitizer]: [cleanObject] of [src/lib/storage/utils.ts], the recursive
      reconciliation of a stored object against a template;
    - [Debounce]: the private [#debounce] of the [StateManager] class together
      with a small model of the host timers ([setTimeout], [clearTimeout],
      [Date.now]);
    - [Manager]: [StateManager.load] and [StateManager.save], in both
      variants of the class present in the sources;
    - [Binding]: the module [src/lib/storage/state.svelte.ts], which wires
      the manager to the storage area and to the auto-save effect.

    The second part states and proves the properties, module by module; a
    last part adds further properties of the same code: the shape of what
    the sanitizer returns, the bookkeeping of timers and executions in the
    debounce controller, what [load()] assigns, and the life of the
    binding from its initial load to its writes. *)

From Stdlib Require Import List String ZArith Bool Lia PrimFloat.
Import ListNotations.
Local Open Scope string_scope.
Local Open Scope list_scope.
Local Open Scope Z_scope.
Set Warnings "-register-all".

(** ** JavaScript values *)

Module JS.

(** The values that reach the sanitizer are those a storage area can hand
    back, plus [undefined] for absent properties.  Numbers are IEEE doubles;
    the sanitizer never computes with them.  Objects keep their own
    properties in [Object.entries] order; arrays are dense. *)
#[local] Unset Elimination Schemes.
Inductive Value : Type :=
| VUndefined
| VNull
| VBool (b : bool)
| VNumber (n : float)
| VString (s : string)
| VArray (items : list Value)
| VObject (props : list (string * Value)).
#[local] Set Elimination Schemes.

(** Results of the [typeof] operator on such values. *)
Inductive TypeTag : Type :=
| TUndefined | TObject | TBoolean | TNumber | TString.

Definition typeof (v : Value) : TypeTag :=
  match v with
  | VUndefined => TUndefined
  | VNull => TObject
  | VBool _ => TBoolean
  | VNumber _ => TNumber
  | VString _ => TString
  | VArray _ => TObject
  | VObject _ => TObject
  end.

Definition tag_eqb (a b : TypeTag) : bool :=
  match a, b with
  | TUndefined, TUndefined | TObject, TObject | TBoolean, TBoolean
  | TNumber, TNumber | TString, TString => true
  | _, _ => false
  end.

(** [typeof v === 'object' && v !== null && !Array.isArray(v)] *)
Definition isPlainObject (v : Value) : bool :=
  match v with VObject _ => true | _ => false end.

(** Own-property lookup in entry order. *)
Fixpoint lookup (key : string) (props : list (string * Value)) : option Value :=
  match props with
  | [] => None
  | (k, v) :: rest => if String.eqb key k then Some v else lookup key rest
  end.

(** [object[key]]: an absent property reads as [undefined]. *)
Definition getProp (key : string) (props : list (string * Value)) : Value :=
  match lookup key props with
  | Some v => v
  | None => VUndefined
  end.

Definition keys (props : list (string * Value)) : list string := map fst props.

(** Structural induction that reaches inside arrays and objects. *)
Section ValueInduction.
Variable P : Value -> Prop.
Hypothesis Hundef : P VUndefined.
Hypothesis Hnull : P VNull.
Hypothesis Hbool : forall b, P (VBool b).
Hypothesis Hnum : forall n, P (VNumber n).
Hypothesis Hstr : forall s, P (VString s).
Hypothesis Harr : forall items, (forall v, In v items -> P v) -> P (VArray items).
Hypothesis Hobj : forall props, (forall k v, In (k, v) props -> P v) -> P (VObject props).

Fixpoint Value_deep_ind (v : Value) : P v :=
  match v with
  | VUndefined => Hundef
  | VNull => Hnull
  | VBool b => Hbool b
  | VNumber n => Hnum n
  | VString s => Hstr s
  | VArray items =>
      Harr items
        ((fix each (l : list Value) : forall x, In x l -> P x :=
            match l with
            | [] => fun x (H : In x []) => match H with end
            | y :: l' => fun x (H : In x (y :: l')) =>
                match H with
                | or_introl e => eq_ind y P (Value_deep_ind y) x e
                | or_intror H' => each l' x H'
                end
            end) items)
  | VObject props =>
      Hobj props
        ((fix each (l : list (string * Value)) : forall k x, In (k, x) l -> P x :=
            match l with
            | [] => fun k x (H : In (k, x) []) => match H with end
            | (k0, y) :: l' => fun k x (H : In (k, x) ((k0, y) :: l')) =>
                match H with
                | or_introl e =>
                    eq_ind y P (Value_deep_ind y) x (f_equal snd e)
                | or_intror H' => each l' k x H'
                end
            end) props)
  end.
End ValueInduction.

End JS.

(** ** The template sanitizer ([cleanObject], utils.ts) *)

Module Sanitizer.
Import JS.

(** [cleanField val def] is the body of the [for ... of Object.entries]
    loop of [cleanObject]: given [val = object[key]] and the template value
    [def] it computes what is stored in [result[key]].  The nested-object
    branch and the object-exemplar branch of [cleanArray] call [cleanObject]
    again, which is the [map] over the template entries below.

    [object[key]] is read among the own properties of [object]; an object
    passed as [undefined] is the empty entry list, as the default value of
    the parameter makes it.  The one key for which a plain object does not
    behave like its list of own entries is [__proto__] ([protoKey] below):
    reading it yields the prototype and [result[key] = v] reaches the
    inherited setter, which creates no own property.  The properties that
    speak of the keys or of the whole of the result are stated for
    templates without that key. *)
Fixpoint cleanField (val def : Value) {struct def} : Value :=
  match def with
  | VObject template =>
      (* defType === 'object' && def !== null && !defIsArray *)
      match val with
      | VObject object =>
          VObject (map (fun entry =>
                          (fst entry,
                           cleanField (getProp (fst entry) object) (snd entry)))
                       template)
      | _ => def
      end
  | VArray templateArr =>
      (* defIsArray *)
      match val with
      | VArray ((_ :: _) as userArr) =>
          (* cleanArray(val, def) *)
          match templateArr with
          | [] => VArray []
          | templateItem :: _ =>
              if isPlainObject templateItem then
                VArray (map (fun item =>
                               if isPlainObject item
                               then cleanField item templateItem
                               else templateItem)
                            userArr)
              else if forallb (fun item => tag_eqb (typeof item) (typeof templateItem))
                              userArr
                   then val
                   else def
          end
      | _ => def
      end
  | _ =>
      (* primitive value *)
      if tag_eqb (typeof val) (typeof def) then val else def
  end.

Definition cleanObject (object template : list (string * Value))
  : list (string * Value) :=
  map (fun entry => (fst entry, cleanField (getProp (fst entry) object) (snd entry)))
      template.

Definition cleanNestedObject (userObj templateObj : list (string * Value))
  : list (string * Value) :=
  cleanObject userObj templateObj.

(** The local helper [cleanArray] of [cleanObject]. *)
Definition cleanArray (userArr templateArr : list Value) : list Value :=
  match templateArr with
  | [] => []
  | templateItem :: _ =>
      match templateItem with
      | VObject tmpl =>
          map (fun item =>
                 match item with
                 | VObject o => VObject (cleanObject o tmpl)
                 | _ => templateItem
                 end) userArr
      | _ =>
          let typeOfTemplateItem := typeof templateItem in
          if forallb (fun item => tag_eqb (typeof item) typeOfTemplateItem) userArr
          then userArr
          else templateArr
      end
  end.

(** *** Well-formed templates

    A template is a nested plain object; an array in it holds zero or one
    exemplar element; the keys of an object are pairwise distinct, as in
    every JavaScript object. *)
Fixpoint distinct (l : list string) : bool :=
  match l with
  | [] => true
  | k :: rest => negb (existsb (String.eqb k) rest) && distinct rest
  end.

Fixpoint wellFormed (def : Value) : bool :=
  match def with
  | VObject props =>
      distinct (keys props) && forallb (fun entry => wellFormed (snd entry)) props
  | VArray [] => true
  | VArray [exemplar] =>
      if isPlainObject exemplar then wellFormed exemplar else true
  | VArray _ => false
  | _ => true
  end.

Definition wellFormedTemplate (template : list (string * Value)) : bool :=
  wellFormed (VObject template).

(** A primitive exemplar: neither an array nor an object. *)
Definition isPrimitive (v : Value) : bool :=
  match v with
  | VArray _ | VObject _ => false
  | _ => true
  end.

Definition sameType (exemplar item : Value) : bool :=
  tag_eqb (typeof item) (typeof exemplar).

(** The input value is a non-empty array all of whose elements have the
    [typeof] of the exemplar. *)
Definition uniformArray (exemplar val : Value) : bool :=
  match val with
  | VArray ((_ :: _) as items) => forallb (sameType exemplar) items
  | _ => false
  end.

(** Sample data used to exercise the sanitizer:
    [{a: 1, b: {c: true}, tags: [""]}] and
    [{a: "x", b: {c: 1, d: 9}, tags: [1, 2]}]. *)
Definition sampleTemplate : list (string * Value) :=
  [("a", VNumber 1%float);
   ("b", VObject [("c", VBool true)]);
   ("tags", VArray [VString EmptyString])].

Definition sampleInput : list (string * Value) :=
  [("a", VString "x");
   ("b", VObject [("c", VNumber 1%float); ("d", VNumber 9%float)]);
   ("tags", VArray [VNumber 1%float; VNumber 2%float])].

Definition tagsTemplate : list (string * Value) :=
  [("tags", VArray [VString EmptyString])].

(** *** The prototype key *)

Definition protoKey : string := "__proto__".

(** No entry of the object has the prototype key. *)
Definition noProtoKey (props : list (string * Value)) : bool :=
  negb (existsb (String.eqb protoKey) (keys props)).

(** No object anywhere in the value has the prototype key. *)
Fixpoint protoFree (v : Value) : bool :=
  match v with
  | VObject props => noProtoKey props && forallb (fun entry => protoFree (snd entry)) props
  | VArray items => forallb protoFree items
  | _ => true
  end.

(** *** Shapes of values

    [forall2b f xs ys]: the two lists have the same length and [f] holds of
    the elements at equal positions. *)
Fixpoint forall2b {X Y : Type} (f : X -> Y -> bool) (xs : list X) (ys : list Y)
  {struct ys} : bool :=
  match ys with
  | [] => match xs with [] => true | _ :: _ => false end
  | y :: ys' =>
      match xs with
      | [] => false
      | x :: xs' => f x y && forall2b f xs' ys'
      end
  end.

(** [conforms v def]: the value [v] has the shape the template value [def]
    stands for.  Under an object template: an object with the keys of the
    template, in its order, whose values conform to the template's.  Under
    an array template with an exemplar: an array whose elements all conform
    to the exemplar when the exemplar is a plain object, and all have the
    [typeof] of the exemplar otherwise.  Under the empty array: the empty
    array.  Under any other template value: a value of the same [typeof]. *)
Fixpoint conforms (v def : Value) {struct def} : bool :=
  match def with
  | VObject template =>
      match v with
      | VObject props =>
          forall2b (fun entry tentry =>
                      String.eqb (fst entry) (fst tentry)
                      && conforms (snd entry) (snd tentry))
                   props template
      | _ => false
      end
  | VArray [] =>
      match v with
      | VArray [] => true
      | _ => false
      end
  | VArray (templateItem :: _) =>
      match v with
      | VArray items =>
          if isPlainObject templateItem
          then forallb (fun item => conforms item templateItem) items
          else forallb (sameType templateItem) items
      | _ => false
      end
  | _ => tag_eqb (typeof v) (typeof def)
  end.

(** [valid v def]: [v] conforms to [def], the keys of each object in it
    are pairwise distinct, and each of its arrays that stands under an
    array template with an exemplar is non-empty. *)
Fixpoint valid (v def : Value) {struct def} : bool :=
  match def with
  | VObject template =>
      match v with
      | VObject props =>
          distinct (keys props)
          && forall2b (fun entry tentry =>
                         String.eqb (fst entry) (fst tentry)
                         && valid (snd entry) (snd tentry))
                      props template
      | _ => false
      end
  | VArray [] =>
      match v with
      | VArray [] => true
      | _ => false
      end
  | VArray (templateItem :: _) =>
      match v with
      | VArray ((_ :: _) as items) =>
          if isPlainObject templateItem
          then forallb (fun item => valid item templateItem) items
          else forallb (sameType templateItem) items
      | _ => false
      end
  | _ => tag_eqb (typeof v) (typeof def)
  end.

(** A template with a list of records, a list of numbers and a nullable
    field, and a stored object that fits it:
    [{name: "", rows: [{id: 0, on: false}], sizes: [0], last: null}] and
    [{name: "n", rows: [{id: 4, on: true}, {id: 5, on: false}], sizes: [1, 2],
      last: null}]. *)
Definition recordTemplate : list (string * Value) :=
  [("name", VString EmptyString);
   ("rows", VArray [VObject [("id", VNumber 0%float); ("on", VBool false)]]);
   ("sizes", VArray [VNumber 0%float]);
   ("last", VNull)].

Definition recordInput : list (string * Value) :=
  [("name", VString "n");
   ("rows", VArray [VObject [("id", VNumber 4%float); ("on", VBool true)];
                    VObject [("id", VNumber 5%float); ("on", VBool false)]]);
   ("sizes", VArray [VNumber 1%float; VNumber 2%float]);
   ("last", VNull)].


End Sanitizer.

(** ** Host timers and the debounce controller ([#debounce], utils.ts) *)

Module Debounce.

(** The two closures that [#debounce] hands to [setTimeout]. *)
Inductive Callback : Type := TrailingCb | MaxWaitCb.

(** A pending host timer: its handle, the time at which it is due and the
    closure it runs. *)
Record Timer : Type := mkTimer { tid : nat; due : Z; cb : Callback }.

(** Options as [#debounce] sees them after destructuring its second
    parameter ([maxWait] stays [undefined] when absent). *)
Record Options : Type := mkOptions {
  immediate : bool;
  delay : Z;
  maxWait : option Z
}.

(** The second parameter of [#debounce] before destructuring. *)
Record RawOptions : Type := mkRawOptions {
  raw_immediate : option bool;
  raw_delay : option Z;
  raw_maxWait : option Z
}.

(** [{ immediate = false, delay = 1000, maxWait } = {}] *)
Definition destructure (o : option RawOptions) : Options :=
  match o with
  | None => mkOptions false 1000 None
  | Some r =>
      mkOptions (match raw_immediate r with Some b => b | None => false end)
                (match raw_delay r with Some d => d | None => 1000 end)
                (raw_maxWait r)
  end.

Section Controller.
Context {A W : Type}.

(** [fn t args w]: the effect on the outside world [w] of running the
    wrapped function at time [t] with arguments [args]. *)
Variable fn : Z -> A -> W -> W.
Variable opts : Options.

(** The closure variables of one debounced function, the host clock and
    timer queue they live in, the world [fn] acts on, and the record of
    the executions of [fn] so far. *)
Record State : Type := mkState {
  timeout : option nat;
  maxTimeout : option nat;
  lastInvokeTime : Z;
  firstCallTime : Z;
  pendingArgs : option A;
  clock : Z;
  timers : list Timer;
  nextId : nat;
  world : W;
  executions : list (Z * A)
}.

Definition initial (t0 : Z) (w : W) : State :=
  mkState None None 0 0 None t0 [] 1%nat w [].

Definition set_timeout (v : option nat) (s : State) : State :=
  mkState v (maxTimeout s) (lastInvokeTime s) (firstCallTime s) (pendingArgs s)
          (clock s) (timers s) (nextId s) (world s) (executions s).

Definition set_maxTimeout (v : option nat) (s : State) : State :=
  mkState (timeout s) v (lastInvokeTime s) (firstCallTime s) (pendingArgs s)
          (clock s) (timers s) (nextId s) (world s) (executions s).

Definition set_firstCallTime (v : Z) (s : State) : State :=
  mkState (timeout s) (maxTimeout s) (lastInvokeTime s) v (pendingArgs s)
          (clock s) (timers s) (nextId s) (world s) (executions s).

Definition set_pendingArgs (v : option A) (s : State) : State :=
  mkState (timeout s) (maxTimeout s) (lastInvokeTime s) (firstCallTime s) v
          (clock s) (timers s) (nextId s) (world s) (executions s).

Definition set_clock (v : Z) (s : State) : State :=
  mkState (timeout s) (maxTimeout s) (lastInvokeTime s) (firstCallTime s)
          (pendingArgs s) v (timers s) (nextId s) (world s) (executions s).

Definition set_timers (v : list Timer) (s : State) : State :=
  mkState (timeout s) (maxTimeout s) (lastInvokeTime s) (firstCallTime s)
          (pendingArgs s) (clock s) v (nextId s) (world s) (executions s).

(** *** Host primitives *)

(** [Date.now()] *)
Definition Date_now (s : State) : Z := clock s.

(** The largest delay a host timer keeps: the host stores the delay as a
    32-bit signed integer. *)
Definition maxDelay : Z := 2147483647.

(** [setTimeout(cb, ms)]: a fresh truthy handle, and a timer due at the
    time the caller asks for; a negative [ms] counts as 0.  A host honours
    the request for [ms <= maxDelay]; what it does with a larger delay
    (it fires the timer at once) is not described here, and the properties
    that say when a timer fires are stated for delays up to [maxDelay]. *)
Definition setTimeout (c : Callback) (ms : Z) (s : State) : nat * State :=
  let id := nextId s in
  (id,
   mkState (timeout s) (maxTimeout s) (lastInvokeTime s) (firstCallTime s)
           (pendingArgs s) (clock s)
           (timers s ++ [mkTimer id (clock s + Z.max 0 ms) c])
           (S id) (world s) (executions s)).

(** [clearTimeout(id)] *)
Definition clearTimeout (id : nat) (s : State) : State :=
  set_timers (filter (fun t => negb (Nat.eqb (tid t) id)) (timers s)) s.

(** *** The closures of [#debounce] *)

Definition invoke (s : State) : State :=
  match pendingArgs s with
  | None => s                                   (* if (!pendingArgs) return *)
  | Some args =>
      mkState (timeout s) (maxTimeout s)
              (Date_now s)                      (* lastInvokeTime = Date.now() *)
              0                                 (* firstCallTime = 0 *)
              None                              (* pendingArgs = null *)
              (clock s) (timers s) (nextId s)
              (fn (Date_now s) args (world s))  (* fn(...pendingArgs) *)
              (executions s ++ [(Date_now s, args)])
  end.

Definition startMaxWaitTimer (s : State) : State :=
  match maxTimeout s with
  | Some _ => s                                 (* already running *)
  | None =>
      match maxWait opts with
      | None => s                               (* maxWait === undefined *)
      | Some mw =>
          let timeSinceFirstCall := Date_now s - firstCallTime s in
          let timeLeft := mw - timeSinceFirstCall in
          let (id, s1) := setTimeout MaxWaitCb timeLeft s in
          set_maxTimeout (Some id) s1
      end
  end.

(** The function returned by [#debounce]. *)
Definition debounced (args : A) (s : State) : State :=
  let s := set_pendingArgs (Some args) s in
  let now := Date_now s in
  let s := if Z.eqb (firstCallTime s) 0 then set_firstCallTime now s else s in
  let s := if immediate opts && Z.eqb (lastInvokeTime s) 0 then invoke s else s in
  let s := match timeout s with
           | Some id => clearTimeout id s
           | None => s
           end in
  let (id, s) := setTimeout TrailingCb (delay opts) s in
  let s := set_timeout (Some id) s in
  startMaxWaitTimer s.

(** The callback of the trailing timer. *)
Definition trailingCallback (s : State) : State :=
  let s := if negb (immediate opts) then invoke s else s in
  let s := match maxTimeout s with
           | Some id => set_maxTimeout None (clearTimeout id s)
           | None => s
           end in
  set_timeout None s.

(** The callback of the max-wait timer. *)
Definition maxWaitCallback (s : State) : State :=
  let s := match timeout s with
           | Some id => set_timeout None (clearTimeout id s)
           | None => s
           end in
  let s := invoke s in
  set_maxTimeout None s.

Definition runCallback (c : Callback) (s : State) : State :=
  match c with
  | TrailingCb => trailingCallback s
  | MaxWaitCb => maxWaitCallback s
  end.

(** *** The host event loop

    Timers fire when the clock reaches their due time, never before, and a
    callback takes no time; the wrapped function does not call the
    debounced function again while it runs. *)

(** Among the pending timers the one due first; timers due at the same
    time run in the order in which they were set. *)
Fixpoint earliest (ts : list Timer) : option Timer :=
  match ts with
  | [] => None
  | t :: rest =>
      match earliest rest with
      | None => Some t
      | Some t' => if Z.leb (due t) (due t') then Some t else Some t'
      end
  end.

(** A timer fires: it leaves the queue, the clock stands at its due time
    (or later), and its callback runs to completion. *)
Definition fire (t : Timer) (s : State) : State :=
  let s := set_clock (Z.max (clock s) (due t)) s in
  let s := set_timers (filter (fun t' => negb (Nat.eqb (tid t') (tid t))) (timers s)) s in
  runCallback (cb t) s.

Fixpoint runTimers (fuel : nat) (target : Z) (s : State) : State :=
  match fuel with
  | O => s
  | S fuel' =>
      match earliest (timers s) with
      | None => s
      | Some t =>
          if Z.leb (due t) target then runTimers fuel' target (fire t s) else s
      end
  end.

(** Time passes until [target]: every timer due by then fires, in order. *)
Definition advanceTo (target : Z) (s : State) : State :=
  let s := runTimers (List.length (timers s)) target s in
  set_clock (Z.max (clock s) target) s.

(** [d] milliseconds pass without a call. *)
Definition sleep (d : Z) (s : State) : State := advanceTo (clock s + d) s.

(** What a client of the debounced function can do. *)
Inductive Action : Type :=
| Call (args : A)
| Sleep (d : Z).

Definition step (s : State) (a : Action) : State :=
  match a with
  | Call args => debounced args s
  | Sleep d => sleep d s
  end.

Definition run (script : list Action) (s : State) : State :=
  fold_left step script s.

(** *** Vocabulary for the properties *)

(** Nothing is pending: no timer is armed, no arguments wait, and no
    burst is under way.  This is the state of a fresh debounced function
    and the state every executing timer callback leaves behind. *)
Definition idle (s : State) : Prop :=
  timers s = [] /\ timeout s = None /\ maxTimeout s = None /\
  pendingArgs s = None /\ firstCallTime s = 0.

(** The state the specification calls fully reset, [now] being the time
    of the execution. *)
Definition fullyReset (now : Z) (s : State) : Prop :=
  pendingArgs s = None /\ firstCallTime s = 0 /\ lastInvokeTime s = now /\
  timeout s = None /\ maxTimeout s = None /\ timers s = [].

(** The timer queue holds exactly the timers the two handles point to. *)
Inductive Armed : list Timer -> option nat -> option nat -> nat -> Prop :=
| NoneArmed : forall n, Armed [] None None n
| TrailingArmed : forall i d n,
    (i < n)%nat -> Armed [mkTimer i d TrailingCb] (Some i) None n
| MaxWaitArmed : forall j e n,
    (j < n)%nat -> Armed [mkTimer j e MaxWaitCb] None (Some j) n
| BothArmed : forall i d j e n,
    (i < j)%nat -> (j < n)%nat ->
    Armed [mkTimer i d TrailingCb; mkTimer j e MaxWaitCb] (Some i) (Some j) n
| BothRearmed : forall i d j e n,
    (j < i)%nat -> (i < n)%nat ->
    Armed [mkTimer j e MaxWaitCb; mkTimer i d TrailingCb] (Some i) (Some j) n.

Definition wellShaped (s : State) : Prop :=
  Armed (timers s) (timeout s) (maxTimeout s) (nextId s).

Definition isMaxWait (t : Timer) : bool :=
  match cb t with MaxWaitCb => true | TrailingCb => false end.


(** No pending timer is overdue. *)
Definition timely (s : State) : Prop :=
  forall t, In t (timers s) -> clock s <= due t.

(** Whenever a timer is armed there are arguments waiting for it. *)
Definition armedWithArgs (s : State) : Prop :=
  timers s <> [] -> exists a, pendingArgs s = Some a.

(** When no timer is armed, nothing else is pending either. *)
Definition quietIsIdle (s : State) : Prop := timers s = [] -> idle s.

(** The clock is past the epoch and no recorded first call lies in the
    future. *)
Definition clockSane (s : State) : Prop :=
  0 <= clock s /\ firstCallTime s <= clock s.




(** The arguments of the calls made by a script, in order. *)
Definition callsOf (script : list Action) : list A :=
  flat_map (fun act => match act with Call args => [args] | Sleep _ => [] end) script.

End Controller.

(** A wrapped function without an observable effect, for the examples. *)
Definition noEffect : Z -> nat -> unit -> unit := fun _ _ w => w.

End Debounce.

(** ** The state manager ([StateManager], both variants in the sources) *)

Module Manager.
Import JS.

Definition JsError : Type := string.

Inductive LogEntry : Type :=
| ConsoleError (message : string) (error : JsError)
| ConsoleLog (message : string).

(** How a call of a sync-or-async callback ends. *)
Inductive Outcome (T : Type) : Type :=
| Returns (v : T)
| Throws (e : JsError)
| Resolves (v : T)
| Rejects (e : JsError).
Arguments Returns {T} v.
Arguments Throws {T} e.
Arguments Resolves {T} v.
Arguments Rejects {T} e.

(** What [await callback()] inside a [try] block observes. *)
Inductive Completion (T : Type) : Type :=
| Normal (v : T)
| Abrupt (e : JsError).
Arguments Normal {T} v.
Arguments Abrupt {T} e.

Definition await {T : Type} (o : Outcome T) : Completion T :=
  match o with
  | Returns v | Resolves v => Normal v
  | Throws e | Rejects e => Abrupt e
  end.

(** The settled state of the promise returned by [load()] or [save()]. *)
Inductive Settled : Type :=
| Fulfilled
| Rejected (e : JsError).

(** The storage area behind the callbacks: the items at rest, the
    arguments of the [set] calls so far, and whether the backend currently
    fails its operations. *)
Record Backend : Type := mkBackend {
  stored : list (string * Value);
  writes : list (list (string * Value));
  fault : option JsError
}.

(** Everything outside the manager that its callbacks can touch. *)
Record Env : Type := mkEnv {
  console : list LogEntry;
  backend : Backend;
  unhandledRejections : list JsError
}.

Definition console_error (message : string) (e : JsError) (v : Env) : Env :=
  mkEnv (console v ++ [ConsoleError message e]) (backend v) (unhandledRejections v).

Definition console_log (message : string) (v : Env) : Env :=
  mkEnv (console v ++ [ConsoleLog message]) (backend v) (unhandledRejections v).

(** A rejected promise that nobody awaits. *)
Definition unhandled (e : JsError) (v : Env) : Env :=
  mkEnv (console v) (backend v) (unhandledRejections v ++ [e]).

(** The world the debounced save acts on: the reactive [state] container
    and the environment. *)
Record World : Type := mkWorld {
  state : list (string * Value);
  env : Env
}.

Definition LoadCallback : Type := Env -> Outcome (list (string * Value)) * Env.
Definition SaveCallback : Type := list (string * Value) -> Env -> Outcome unit * Env.

(** The two variants of the class found in the sources: the first logs in
    its [catch] blocks before re-throwing, the second only re-throws. *)
Inductive Variant : Type := V1 | V2.

(** [target[key] = v] on an entry list. *)
Fixpoint setProp (key : string) (v : Value) (props : list (string * Value))
  : list (string * Value) :=
  match props with
  | [] => [(key, v)]
  | (k, old) :: rest =>
      if String.eqb key k then (k, v) :: rest else (k, old) :: setProp key v rest
  end.

(** [Object.assign(target, source)] *)
Definition Object_assign (target source : list (string * Value))
  : list (string * Value) :=
  fold_left (fun acc entry => setProp (fst entry) (snd entry) acc) source target.

(** [structuredClone] and [$state.snapshot] produce structurally equal
    copies of values of this kind. *)
Definition structuredClone (v : list (string * Value)) : list (string * Value) := v.
Definition snapshot (v : list (string * Value)) : list (string * Value) := v.

(** [this.debounceOptions] *)
Record DebounceOptions : Type := mkDebounceOptions {
  opt_delay : Z;
  opt_maxWait : Z;
  opt_immediate : bool
}.

(** The constructor's defaults:
    [delay ?? 0], [maxWait ?? 0], [immediate ?? false]. *)
Definition defaultOptions (given : option Debounce.RawOptions) : DebounceOptions :=
  mkDebounceOptions
    (match given with
     | Some r => match Debounce.raw_delay r with Some d => d | None => 0 end
     | None => 0
     end)
    (match given with
     | Some r => match Debounce.raw_maxWait r with Some m => m | None => 0 end
     | None => 0
     end)
    (match given with
     | Some r => match Debounce.raw_immediate r with Some b => b | None => false end
     | None => false
     end).

(** What [#debounce] receives when the constructor passes
    [this.debounceOptions] on. *)
Definition passedOptions (o : DebounceOptions) : Debounce.Options :=
  Debounce.destructure
    (Some (Debounce.mkRawOptions (Some (opt_immediate o)) (Some (opt_delay o))
                                 (Some (opt_maxWait o)))).

(** The [debouncedSave] field: absent in the first variant and a no-op in
    the second when no [saveCallback] was given, else the debounced
    wrapper. *)
Inductive SaveField : Type :=
| SaveUndefined
| SaveNoop
| SaveDebounced.

(** The async closure the constructor wraps with [#debounce].  Its promise
    is dropped by [invoke], so a rejection stays unhandled. *)
Definition saveClosure (variant : Variant) (saveCallback : option SaveCallback)
    (t : Z) (args : unit) (w : World) : World :=
  match saveCallback with
  | None => w                                    (* if (!this.#saveCallback) return *)
  | Some callback =>
      let stateSnapshot := structuredClone (snapshot (state w)) in
      let (outcome, v) := callback stateSnapshot (env w) in
      match await outcome with
      | Normal _ => mkWorld (state w) v
      | Abrupt error =>
          let v := match variant with
                   | V1 => console_error "StateManager: Failed to save state to storage:"
                                         error v
                   | V2 => v
                   end in
          mkWorld (state w) (unhandled error v)  (* throw error *)
      end
  end.

Record StateManager : Type := mkStateManager {
  variant : Variant;
  loadCallback : LoadCallback;
  saveCallback : option SaveCallback;
  debounceOptions : DebounceOptions;
  debouncedSave : SaveField;
  (** closure variables of the debounced save, the host timers, and the
      world holding [state] *)
  ctl : @Debounce.State unit World
}.

Definition set_ctl (c : @Debounce.State unit World) (m : StateManager) : StateManager :=
  mkStateManager (variant m) (loadCallback m) (saveCallback m) (debounceOptions m)
                 (debouncedSave m) c.

Definition set_world (w : World) (c : @Debounce.State unit World)
  : @Debounce.State unit World :=
  Debounce.mkState (Debounce.timeout c) (Debounce.maxTimeout c)
                   (Debounce.lastInvokeTime c) (Debounce.firstCallTime c)
                   (Debounce.pendingArgs c) (Debounce.clock c) (Debounce.timers c)
                   (Debounce.nextId c) w (Debounce.executions c).

Definition worldOf (m : StateManager) : World := Debounce.world (ctl m).

(** [new StateManager(loadCallback, saveCallback, debounceOptions)], created
    at time [t0] in environment [v]; [state] starts as the empty object. *)
Definition construct (variant : Variant) (loadCallback : LoadCallback)
    (saveCallback : option SaveCallback) (given : option Debounce.RawOptions)
    (t0 : Z) (v : Env) : StateManager :=
  mkStateManager variant loadCallback saveCallback (defaultOptions given)
    (match saveCallback with
     | Some _ => SaveDebounced
     | None => match variant with V1 => SaveUndefined | V2 => SaveNoop end
     end)
    (Debounce.initial t0 (mkWorld [] v)).

(** [load()]: the settled promise and the manager afterwards.  The
    [loadCallback] is a mandatory argument of the constructor, so the guard
    [if (!this.#loadCallback) return] never applies. *)
Definition load (m : StateManager) : Settled * StateManager :=
  let w := worldOf m in
  let (outcome, v) := loadCallback m (env w) in
  match await outcome with
  | Normal loadedData =>
      (Fulfilled,
       set_ctl (set_world (mkWorld (Object_assign (state w) (structuredClone loadedData)) v)
                          (ctl m)) m)
  | Abrupt error =>
      let v := match variant m with
               | V1 => console_error "StateManager: Failed to load state from storage:"
                                     error v
               | V2 => v
               end in
      (Rejected error, set_ctl (set_world (mkWorld (state w) v) (ctl m)) m)
  end.

(** The debounced wrapper built by the constructor. *)
Definition callDebounced (m : StateManager) : StateManager :=
  set_ctl (Debounce.debounced (saveClosure (variant m) (saveCallback m))
                              (passedOptions (debounceOptions m)) tt (ctl m)) m.

(** [save()] *)
Definition save (m : StateManager) : Settled * StateManager :=
  match debouncedSave m with
  | SaveUndefined => (Fulfilled, m)
  | SaveNoop => (Fulfilled, m)
  | SaveDebounced => (Fulfilled, callDebounced m)
  end.

(** Time passes for the manager's timers. *)
Definition sleep (d : Z) (m : StateManager) : StateManager :=
  set_ctl (Debounce.sleep (saveClosure (variant m) (saveCallback m))
                          (passedOptions (debounceOptions m)) d (ctl m)) m.

(** The constructor was given no [maxWait]: [debounceOptions] is absent or
    lacks the field. *)
Definition maxWaitOmitted (given : option Debounce.RawOptions) : bool :=
  match given with
  | None => true
  | Some r => match Debounce.raw_maxWait r with None => true | Some _ => false end
  end.

(** Sample environment and callbacks. *)
Definition emptyEnv : Env := mkEnv [] (mkBackend [] [] None) [].

Definition resolvingLoad (data : list (string * Value)) : LoadCallback :=
  fun v => (Resolves data, v).

Definition rejectingLoad (e : JsError) : LoadCallback := fun v => (Rejects e, v).

Definition resolvingSave : SaveCallback := fun _ v => (Resolves tt, v).

Definition rejectingSave (e : JsError) : SaveCallback := fun _ v => (Rejects e, v).

End Manager.

(** ** The storage binding ([state.svelte.ts]) *)

Module Binding.
Import JS Manager.

(** Modelled from the spec: the storage area is the browser's, its code is
    not part of the sources.  [getStorageArea().get()] reads the raw value
    from the storage backend, or fails. *)
Definition storage_get (b : Backend) : Outcome (list (string * Value)) :=
  match fault b with
  | Some e => Rejects e
  | None => Resolves (stored b)
  end.

(** Modelled from the spec: [getStorageArea().set(items)] writes the given
    value to the storage backend, which then holds that value in place of
    the one before, or fails and leaves the backend as it was.  Either way
    the call is recorded in [writes]. *)
Definition storage_set (items : list (string * Value)) (b : Backend)
  : Outcome unit * Backend :=
  match fault b with
  | Some e => (Rejects e, mkBackend (stored b) (writes b ++ [items]) (fault b))
  | None => (Resolves tt, mkBackend items (writes b ++ [items]) None)
  end.

Definition set_backend (b : Backend) (v : Env) : Env :=
  mkEnv (console v) b (unhandledRejections v).

Section Module.
(** [defaultStorageObject] is imported from [default-object]; the
    properties hold whatever it contains. *)
Variable defaultStorageObject : list (string * Value).
(** Which of the two variants of the class the module imports. *)
Variable variant : Variant.

Definition loadState : LoadCallback := fun v =>
  match await (storage_get (backend v)) with
  | Normal raw => (Resolves (Sanitizer.cleanObject raw defaultStorageObject), v)
  | Abrupt err => (Rejects err, console_error "Failed to load from storage:" err v)
  end.

(** [saveState] takes its own snapshot of [stateManager.state]; it runs
    in the same turn as the manager's snapshot, so both hold the value
    passed here. *)
Definition saveState : SaveCallback := fun data v =>
  let (outcome, b) := storage_set (snapshot data) (backend v) in
  match await outcome with
  | Normal _ => (Resolves tt, console_log "Storage saved" (set_backend b v))
  | Abrupt err =>
      (Resolves tt, console_error "Failed to save to storage:" err (set_backend b v))
  end.

(** Where the immediately-invoked loader stands. *)
Inductive Phase : Type :=
| AwaitingLoad                  (* suspended at [await stateManager.load()] *)
| LoadSettled (r : Settled)     (* [load()] has settled, the loader not yet resumed *)
| LoaderDone.

(** The module-level variables, and a count of the calls of
    [stateManager.save()] made by the auto-save effect. *)
Record Module : Type := mkModule {
  storageLoaded : bool;
  autoSaveEffectRegistered : bool;
  stateManager : StateManager;
  phase : Phase;
  saveCalls : nat
}.

(** Module evaluation at time [t0]: the manager is constructed with
    [{ delay: 500, maxWait: 1000 }] and the loader starts. *)
Definition init (t0 : Z) (v : Env) : Module :=
  mkModule false false
    (construct variant loadState (Some saveState)
               (Some (Debounce.mkRawOptions None (Some 500) (Some 1000))) t0 v)
    AwaitingLoad 0.

Definition set_manager (m : StateManager) (b : Module) : Module :=
  mkModule (storageLoaded b) (autoSaveEffectRegistered b) m (phase b) (saveCalls b).

Definition set_env (v : Env) (m : StateManager) : StateManager :=
  set_ctl (set_world (mkWorld (state (worldOf m)) v) (ctl m)) m.

Definition set_state (st : list (string * Value)) (m : StateManager) : StateManager :=
  set_ctl (set_world (mkWorld st (env (worldOf m))) (ctl m)) m.

(** What can happen to the module. *)
Inductive Event : Type :=
| LoadSettles                         (* [stateManager.load()] runs to its end *)
| LoaderResumes                       (* the loader continues after its [await] *)
| InitialiseStorageAutoSave           (* a component calls the exported function *)
| EffectRuns                          (* the scheduler runs the registered effect *)
| Mutate (key : string) (v : Value)   (* the UI assigns a field of [state] *)
| Elapse (d : Z)                      (* time passes *)
| BackendFault (f : option JsError).  (* the backend starts or stops failing *)

Definition handle (b : Module) (e : Event) : Module :=
  match e with
  | LoadSettles =>
      match phase b with
      | AwaitingLoad =>
          let (r, m) := load (stateManager b) in
          mkModule (storageLoaded b) (autoSaveEffectRegistered b) m (LoadSettled r)
                   (saveCalls b)
      | _ => b
      end
  | LoaderResumes =>
      match phase b with
      | LoadSettled Fulfilled =>
          (* storageLoaded = true; getStorageArea().set(cleanObject(...)) *)
          let m := stateManager b in
          let v := env (worldOf m) in
          let (outcome, bk) :=
            storage_set (Sanitizer.cleanObject (state (worldOf m)) defaultStorageObject)
                        (backend v) in
          let v := set_backend bk v in
          let v := match await outcome with
                   | Normal _ => v
                   | Abrupt err => unhandled err v
                   end in
          mkModule true (autoSaveEffectRegistered b) (set_env v m) LoaderDone
                   (saveCalls b)
      | LoadSettled (Rejected error) =>
          let m := stateManager b in
          let v := console_error "Failed to load from storage:" error (env (worldOf m)) in
          mkModule (storageLoaded b) (autoSaveEffectRegistered b) (set_env v m)
                   LoaderDone (saveCalls b)
      | _ => b
      end
  | InitialiseStorageAutoSave =>
      if autoSaveEffectRegistered b then b
      else mkModule (storageLoaded b) true (stateManager b) (phase b) (saveCalls b)
  | EffectRuns =>
      if autoSaveEffectRegistered b then
        (* JSON.stringify(stateManager.state) only reads *)
        if negb (storageLoaded b) then b
        else mkModule (storageLoaded b) (autoSaveEffectRegistered b)
                      (snd (save (stateManager b))) (phase b) (S (saveCalls b))
      else b
  | Mutate key v =>
      let m := stateManager b in
      set_manager (set_state (setProp key v (state (worldOf m))) m) b
  | Elapse d => set_manager (Manager.sleep d (stateManager b)) b
  | BackendFault f =>
      let m := stateManager b in
      let v := env (worldOf m) in
      set_manager
        (set_env (set_backend (mkBackend (stored (backend v)) (writes (backend v)) f) v) m)
        b
  end.

Definition play (events : list Event) (b : Module) : Module :=
  fold_left handle events b.

(** The persistence calls made so far: the arguments of the storage
    area's [set]. *)
Definition persisted (b : Module) : list (list (string * Value)) :=
  writes (backend (env (worldOf (stateManager b)))).

(** While the guard is down nothing has gone through the debounced
    save: no call of [save()], no write, no execution, no timer. *)
Definition untouched (v0 : Env) (b : Module) : Prop :=
  saveCalls b = 0%nat /\
  persisted b = writes (backend v0) /\
  Debounce.executions (ctl (stateManager b)) = [] /\
  Debounce.timers (ctl (stateManager b)) = [].

Definition guarded (v0 : Env) (b : Module) : Prop :=
  loadCallback (stateManager b) = loadState /\
  (storageLoaded b = false -> untouched v0 b) /\
  (storageLoaded b = true -> phase b = LoaderDone).

(** The function and the options the constructor hands to [#debounce]
    for the manager of this module, and that manager with its controller
    in state [c]. *)
Definition moduleSave : Z -> unit -> World -> World :=
  saveClosure variant (Some saveState).

Definition moduleOptions : Debounce.Options :=
  passedOptions (defaultOptions (Some (Debounce.mkRawOptions None (Some 500) (Some 1000)))).

Definition managerWith (c : @Debounce.State unit World) : StateManager :=
  mkStateManager variant loadState (Some saveState)
                 (defaultOptions (Some (Debounce.mkRawOptions None (Some 500) (Some 1000))))
                 SaveDebounced c.

End Module.

(** A sample default object: [{theme: "light", vol: 5}]. *)
Definition sampleDefaults : list (string * Value) :=
  [("theme", VString "light"); ("vol", VNumber 5%float)].

End Binding.

(** * Properties *)

(** ** The sanitizer *)

Module SanitizerFacts.
Import JS Sanitizer.

Lemma tag_eqb_refl : forall t, tag_eqb t t = true.
Proof. destruct t; reflexivity. Qed.

(** The source's nested calls are calls of [cleanObject] and [cleanArray]. *)
Lemma cleanField_object : forall object template,
  cleanField (VObject object) (VObject template) = VObject (cleanObject object template).
Proof. reflexivity. Qed.

Lemma cleanField_array : forall item userArr templateArr,
  cleanField (VArray (item :: userArr)) (VArray templateArr)
  = VArray (cleanArray (item :: userArr) templateArr).
Proof.
  intros item userArr [|templateItem rest]; [reflexivity|].
  destruct templateItem;
    cbn [cleanField cleanArray isPlainObject];
    try (destruct (forallb _ (item :: userArr)); reflexivity).
  f_equal. apply map_ext. intros [ | | | | | |o]; reflexivity.
Qed.

Lemma lookup_cleanObject : forall key object template,
  lookup key (cleanObject object template)
  = option_map (fun def => cleanField (getProp key object) def) (lookup key template).
Proof.
  intros key object template. unfold cleanObject.
  induction template as [|[k d] rest IH]; simpl; [reflexivity|].
  destruct (String.eqb key k) eqn:E.
  - apply String.eqb_eq in E. subst. reflexivity.
  - exact IH.
Qed.

Lemma existsb_eqb_false : forall k (l : list string),
  existsb (String.eqb k) l = false -> ~ In k l.
Proof.
  intros k l H Hin.
  assert (existsb (String.eqb k) l = true) as C.
  { apply existsb_exists. exists k. split; [assumption|apply String.eqb_refl]. }
  congruence.
Qed.

Lemma lookup_distinct : forall props k v,
  distinct (keys props) = true -> In (k, v) props -> lookup k props = Some v.
Proof.
  induction props as [|[k0 v0] rest IH]; intros k v Hd Hin; simpl in *; [contradiction|].
  apply andb_prop in Hd. destruct Hd as [Hfresh Hd].
  apply negb_true_iff in Hfresh. apply existsb_eqb_false in Hfresh.
  destruct Hin as [E|Hin].
  - inversion E; subst. rewrite String.eqb_refl. reflexivity.
  - destruct (String.eqb k k0) eqn:E.
    + apply String.eqb_eq in E. subst. exfalso. apply Hfresh.
      unfold keys. apply in_map_iff. exists (k0, v). split; [reflexivity|assumption].
    + apply IH; assumption.
Qed.

Lemma map_id_on : forall (X : Type) (f : X -> X) (l : list X),
  (forall x, In x l -> f x = x) -> map f l = l.
Proof.
  intros X f l. induction l as [|x l IH]; intros H; simpl; [reflexivity|].
  rewrite (H x (or_introl eq_refl)). rewrite IH; [reflexivity|].
  intros y Hy. apply H. right. assumption.
Qed.

Lemma wellFormed_object : forall props,
  wellFormed (VObject props) = true ->
  distinct (keys props) = true /\ forall k v, In (k, v) props -> wellFormed v = true.
Proof.
  intros props H. simpl in H. apply andb_prop in H. destruct H as [Hd Hall].
  split; [assumption|]. intros k v Hin.
  rewrite forallb_forall in Hall. exact (Hall (k, v) Hin).
Qed.

(** A well-formed template is a fixed point of the sanitizer. *)
Lemma cleanField_self : forall def, wellFormed def = true -> cleanField def def = def.
Proof.
  induction def as [ | | b | n | s | items IH | props IH] using Value_deep_ind;
    intros Hwf; try reflexivity.
  - (* array *)
    destruct items as [|exemplar [|second rest]]; [reflexivity| |discriminate].
    cbn [cleanField]. simpl in Hwf.
    destruct (isPlainObject exemplar) eqn:Hplain.
    + cbn [map]. rewrite Hplain. rewrite IH; [reflexivity|left; reflexivity|assumption].
    + cbn [forallb]. rewrite tag_eqb_refl. reflexivity.
  - (* object *)
    apply wellFormed_object in Hwf. destruct Hwf as [Hd Hall].
    cbn [cleanField]. f_equal. apply map_id_on. intros [k v] Hin. cbn [fst snd].
    unfold getProp. rewrite (lookup_distinct props k v Hd Hin).
    rewrite (IH k v Hin (Hall k v Hin)). reflexivity.
Qed.

Lemma cleanField_idempotent : forall def, wellFormed def = true ->
  forall val, cleanField (cleanField val def) def = cleanField val def.
Proof.
  induction def as [ | | b | n | s | items IH | props IH] using Value_deep_ind;
    intros Hwf val.
  1-5: cbn [cleanField];
       match goal with
       | |- context [tag_eqb (typeof ?v) ?t] =>
           destruct (tag_eqb (typeof v) t) eqn:E;
           [cbn [cleanField]; rewrite E; reflexivity | reflexivity]
       end.
  - (* array template *)
    assert (cleanField (VArray items) (VArray items) = VArray items) as Hself
      by (apply cleanField_self; assumption).
    destruct val as [ | | | | |[|item userArr]| ]; try exact Hself.
    destruct items as [|exemplar [|second rest]]; [reflexivity| |discriminate].
    simpl in Hwf. cbn [cleanField].
    destruct (isPlainObject exemplar) eqn:Hplain.
    + assert (IHex : forall v, cleanField (cleanField v exemplar) exemplar
                               = cleanField v exemplar)
        by (apply IH; [left; reflexivity|assumption]).
      pose (g := fun i => if isPlainObject i then cleanField i exemplar else exemplar).
      assert (Hg : forall i, g (g i) = g i).
      { intros i. unfold g. destruct (isPlainObject i) eqn:Hi.
        - destruct exemplar; try discriminate. destruct i; try discriminate.
          rewrite cleanField_object. cbn [isPlainObject].
          rewrite <- cleanField_object. apply IHex.
        - rewrite Hplain. apply cleanField_self. assumption. }
      cbn [map]. fold g. f_equal. f_equal; [apply Hg|].
      rewrite map_map. apply map_ext. exact Hg.
    + destruct (forallb _ (item :: userArr)) eqn:Hall.
      * cbn [cleanField]. rewrite Hall. reflexivity.
      * destruct (forallb _ [exemplar]); reflexivity.
  - (* object template *)
    assert (cleanField (VObject props) (VObject props) = VObject props) as Hself
      by (apply cleanField_self; assumption).
    destruct val as [ | | | | | |object]; try exact Hself.
    apply wellFormed_object in Hwf. destruct Hwf as [Hd Hall].
    rewrite cleanField_object. rewrite cleanField_object. f_equal.
    unfold cleanObject at 1 3. apply map_ext_in. intros [k d] Hin. cbn [fst snd].
    f_equal. unfold getProp at 1. rewrite lookup_cleanObject.
    rewrite (lookup_distinct props k d Hd Hin). cbn [option_map].
    apply (IH k d Hin (Hall k d Hin)).
Qed.

(** C4 -- the sanitizer is idempotent: for every input object [x] and every
    well-formed template [T], cleaning the cleaned object again against [T]
    gives back the cleaned object, entry for entry. *)
Theorem C4_cleanObject_idempotent : forall x T,
  wellFormedTemplate T = true ->
  cleanObject (cleanObject x T) T = cleanObject x T.
Proof.
  intros x T Hwf.
  pose proof (cleanField_idempotent (VObject T) Hwf (VObject x)) as H.
  rewrite !cleanField_object in H. injection H as H. exact H.
Qed.

Lemma C4_cleanObject_idempotent_witness :
  wellFormedTemplate sampleTemplate = true /\
  cleanObject (cleanObject sampleInput sampleTemplate) sampleTemplate
  = cleanObject sampleInput sampleTemplate.
Proof.
  split; [reflexivity|].
  apply (C4_cleanObject_idempotent sampleInput sampleTemplate). reflexivity.
Defined.

Lemma uniformArray_primitive : forall exemplar rest val,
  isPlainObject exemplar = false ->
  cleanField val (VArray (exemplar :: rest))
  = if uniformArray exemplar val then val else VArray (exemplar :: rest).
Proof.
  intros exemplar rest val Hplain.
  destruct val as [ | | | | |[|item items]| ]; try reflexivity.
  cbn [cleanField uniformArray]. rewrite Hplain. reflexivity.
Qed.

(** C7 -- for a template key whose value is a non-empty array with a
    primitive exemplar, the output for that key is the input array itself
    when the input value is a non-empty array whose elements all have the
    [typeof] of the exemplar, and the template array otherwise (a mistyped
    element, or a missing, empty or non-array input value).  With
    [T = {tags: [""]}], input [{tags: [1, 2]}] yields [{tags: [""]}] and
    input [{tags: ["x", "y"]}] is returned unchanged. *)
Theorem C7_primitive_exemplar_array :
  (forall template object key exemplar rest,
      lookup key template = Some (VArray (exemplar :: rest)) ->
      isPrimitive exemplar = true ->
      lookup key (cleanObject object template)
      = Some (if uniformArray exemplar (getProp key object)
              then getProp key object
              else VArray (exemplar :: rest)))
  /\ cleanObject [("tags", VArray [VNumber 1%float; VNumber 2%float])] tagsTemplate
     = [("tags", VArray [VString EmptyString])]
  /\ cleanObject [("tags", VArray [VString "x"; VString "y"])] tagsTemplate
     = [("tags", VArray [VString "x"; VString "y"])].
Proof.
  split; [|split; reflexivity].
  intros template object key exemplar rest Hkey Hprim.
  rewrite lookup_cleanObject, Hkey. cbn [option_map]. f_equal.
  apply uniformArray_primitive. destruct exemplar; simpl in *; congruence.
Qed.

Lemma C7_primitive_exemplar_array_witness :
  lookup "tags" (cleanObject sampleInput sampleTemplate)
  = Some (VArray [VString EmptyString]).
Proof.
  exact (proj1 C7_primitive_exemplar_array sampleTemplate sampleInput "tags"
               (VString EmptyString) [] eq_refl eq_refl).
Defined.

End SanitizerFacts.

(** ** The debounce controller *)

Module DebounceFacts.
Import Debounce.

Section Facts.
Context {A W : Type}.
Variable fn : Z -> A -> W -> W.
Variable opts : Options.

(** The wrapper in one piece: what a call does to each closure variable. *)
Lemma debounced_eq : forall a to mto lit fct pa cl ts nid w ex,
  debounced fn opts a (mkState to mto lit fct pa cl ts nid w ex)
  = let leading := immediate opts && Z.eqb lit 0 in
    let fct' := if leading then 0 else if Z.eqb fct 0 then cl else fct in
    let kept := match to with
                | Some id => filter (fun t => negb (Nat.eqb (tid t) id)) ts
                | None => ts
                end in
    let queue := kept ++ [mkTimer nid (cl + Z.max 0 (delay opts)) TrailingCb] in
    let lit' := if leading then cl else lit in
    let pa' := if leading then None else Some a in
    let w' := if leading then fn cl a w else w in
    let ex' := if leading then ex ++ [(cl, a)] else ex in
    match mto, maxWait opts with
    | None, Some mw =>
        mkState (Some nid) (Some (S nid)) lit' fct' pa' cl
                (queue ++ [mkTimer (S nid) (cl + Z.max 0 (mw - (cl - fct'))) MaxWaitCb])
                (S (S nid)) w' ex'
    | _, _ => mkState (Some nid) mto lit' fct' pa' cl queue (S nid) w' ex'
    end.
Proof.
  intros a to mto lit fct pa cl ts nid w ex.
  destruct opts as [im d mw].
  destruct im, lit as [|l|l], fct as [|f|f], to, mto, mw; reflexivity.
Qed.

Lemma fire_trailing_eq : forall i at_ to mto lit fct pa cl ts nid w ex,
  fire fn opts (mkTimer i at_ TrailingCb) (mkState to mto lit fct pa cl ts nid w ex)
  = let now := Z.max cl at_ in
    let rest := filter (fun t => negb (Nat.eqb (tid t) i)) ts in
    let rest := match mto with
                | Some id => filter (fun t => negb (Nat.eqb (tid t) id)) rest
                | None => rest
                end in
    match (if immediate opts then None else pa) with
    | Some args =>
        mkState None None now 0 None now rest nid (fn now args w) (ex ++ [(now, args)])
    | None => mkState None None lit fct pa now rest nid w ex
    end.
Proof.
  intros. destruct opts as [im d mw]. destruct im, mto, pa; reflexivity.
Qed.

Lemma fire_maxWait_eq : forall j at_ to mto lit fct pa cl ts nid w ex,
  fire fn opts (mkTimer j at_ MaxWaitCb) (mkState to mto lit fct pa cl ts nid w ex)
  = let now := Z.max cl at_ in
    let rest := filter (fun t => negb (Nat.eqb (tid t) j)) ts in
    let rest := match to with
                | Some id => filter (fun t => negb (Nat.eqb (tid t) id)) rest
                | None => rest
                end in
    match pa with
    | Some args =>
        mkState None None now 0 None now rest nid (fn now args w) (ex ++ [(now, args)])
    | None => mkState None None lit fct None now rest nid w ex
    end.
Proof.
  intros. destruct to, pa; reflexivity.
Qed.

(** Reduce projections, list operations and [let]s; leave arithmetic. *)
Ltac exec1 :=
  cbv beta iota zeta delta
    [timeout maxTimeout lastInvokeTime firstCallTime pendingArgs clock timers nextId
     world executions tid due cb
     set_clock set_timers wellShaped idle fullyReset clockSane];
  cbn [app filter andb negb].

Ltac ids :=
  repeat match goal with
    | |- context [Nat.eqb ?x ?x] => rewrite (Nat.eqb_refl x)
    | |- context [Nat.eqb ?x ?y] => rewrite (proj2 (Nat.eqb_neq x y)) by lia
    end.

Ltac exec := exec1; repeat (progress (rewrite ?Z.eqb_refl; ids; exec1)).

Ltac break :=
  repeat (exec;
          match goal with
          | |- context [if ?c then _ else _] => destruct c eqn:?
          | |- context [match ?o with Some _ => _ | None => _ end] => destruct o eqn:?
          end).

Ltac open_state s :=
  destruct s as [to mto lit fct pa cl ts nid w ex];
  rewrite ?debounced_eq; exec.

(** Case analysis on which timer of a concrete queue is meant. *)
Ltac pick H :=
  try contradiction;
  repeat (destruct H as [<-|H]; [|try contradiction]).

Ltac fire_eqs := rewrite ?fire_trailing_eq, ?fire_maxWait_eq.

Lemma debounced_wellShaped : forall a (s : @State A W),
  wellShaped s -> wellShaped (debounced fn opts a s).
Proof.
  intros a s. open_state s. intros H.
  inversion H; subst; clear H; break; exec; ids; constructor; lia.
Qed.

Lemma fire_clears : forall t (s : @State A W),
  wellShaped s -> In t (timers s) ->
  let s' := fire fn opts t s in
  timers s' = [] /\ timeout s' = None /\ maxTimeout s' = None /\ nextId s' = nextId s.
Proof.
  intros t s. open_state s. intros H Hin.
  inversion H; subst; clear H; cbn in Hin; pick Hin;
    fire_eqs; break; exec; ids; auto.
Qed.
Lemma earliest_In : forall ts t, earliest ts = Some t -> In t ts.
Proof.
  induction ts as [|x rest IH]; intros t H; simpl in H; [discriminate|].
  destruct (earliest rest) as [t'|] eqn:E.
  - destruct (Z.leb (due x) (due t')); injection H as <-; [left; reflexivity|].
    right. apply IH. reflexivity.
  - injection H as <-. left. reflexivity.
Qed.

Lemma runTimers_empty : forall fuel target (s : @State A W),
  timers s = [] -> runTimers fn opts fuel target s = s.
Proof. intros [|fuel] target s H; simpl; [reflexivity|]. rewrite H. reflexivity. Qed.

Lemma runTimers_none_due : forall fuel target (s : @State A W),
  (forall t, In t (timers s) -> target < due t) ->
  runTimers fn opts fuel target s = s.
Proof.
  intros [|fuel] target s H; simpl; [reflexivity|].
  destruct (earliest (timers s)) as [t|] eqn:E; [|reflexivity].
  apply earliest_In in E. apply H in E.
  destruct (Z.leb_spec (due t) target); [lia|reflexivity].
Qed.

Lemma advanceTo_none_due : forall target (s : @State A W),
  (forall t, In t (timers s) -> target < due t) ->
  advanceTo fn opts target s = set_clock (Z.max (clock s) target) s.
Proof.
  intros target s H. unfold advanceTo. rewrite runTimers_none_due by assumption.
  reflexivity.
Qed.

Lemma advanceTo_fires : forall target t (s : @State A W),
  wellShaped s -> earliest (timers s) = Some t -> due t <= target ->
  advanceTo fn opts target s
  = set_clock (Z.max (clock (fire fn opts t s)) target) (fire fn opts t s).
Proof.
  intros target t s Hs E Hdue. unfold advanceTo.
  pose proof (earliest_In _ _ E) as Hin.
  destruct (timers s) as [|x rest] eqn:Ets; [contradiction|].
  cbn [List.length runTimers]. rewrite Ets, E.
  destruct (Z.leb_spec (due t) target); [|lia].
  rewrite runTimers_empty; [reflexivity|].
  apply fire_clears; [assumption|]. rewrite Ets. assumption.
Qed.

Lemma earliest_min : forall ts t,
  earliest ts = Some t -> forall t', In t' ts -> due t <= due t'.
Proof.
  induction ts as [|x rest IH]; intros t H t' Hin; [contradiction|].
  simpl in H. destruct (earliest rest) as [t1|] eqn:E1.
  - specialize (IH t1 eq_refl).
    destruct (Z.leb_spec (due x) (due t1)); injection H as <-;
      destruct Hin as [<-|Hin]; try lia.
    + specialize (IH t' Hin). lia.
    + apply IH. assumption.
  - injection H as <-. destruct Hin as [<-|Hin]; [lia|].
    destruct rest; [contradiction|]. simpl in E1.
    destruct (earliest rest); [destruct (Z.leb _ _)|]; discriminate.
Qed.

Lemma earliest_None : forall ts, earliest ts = None -> ts = [].
Proof.
  intros [|x rest] H; [reflexivity|]. simpl in H.
  destruct (earliest rest); [destruct (Z.leb _ _)|]; discriminate.
Qed.

(** Whatever was pending, once time has passed no timer that was due is
    left in the queue: the fuel of [advanceTo] is enough. *)
Lemma advanceTo_complete : forall target (s : @State A W),
  wellShaped s ->
  forall t, In t (timers (advanceTo fn opts target s)) -> target < due t.
Proof.
  intros target s Hs t Hin.
  destruct (earliest (timers s)) as [t0|] eqn:E.
  - destruct (Z.leb_spec (due t0) target) as [Hle|Hgt].
    + rewrite (advanceTo_fires target t0 s Hs E Hle) in Hin. cbn in Hin.
      destruct (fire_clears t0 s Hs (earliest_In _ _ E)) as [Hnil _].
      rewrite Hnil in Hin. contradiction.
    + assert (forall t', In t' (timers s) -> target < due t') as Hall.
      { intros t' Ht'. pose proof (earliest_min _ _ E t' Ht'). lia. }
      rewrite (advanceTo_none_due target s Hall) in Hin. cbn in Hin.
      apply Hall. assumption.
  - apply earliest_None in E. rewrite advanceTo_none_due in Hin.
    + cbn in Hin. rewrite E in Hin. contradiction.
    + rewrite E. intros ? [].
Qed.

Lemma advanceTo_wellShaped : forall target (s : @State A W),
  wellShaped s -> wellShaped (advanceTo fn opts target s).
Proof.
  intros target s Hs.
  destruct (earliest (timers s)) as [t0|] eqn:E.
  - destruct (Z.leb_spec (due t0) target) as [Hle|Hgt].
    + rewrite (advanceTo_fires target t0 s Hs E Hle).
      destruct (fire_clears t0 s Hs (earliest_In _ _ E)) as (H1 & H2 & H3 & H4).
      unfold wellShaped. cbn. rewrite H1, H2, H3. constructor.
    + rewrite advanceTo_none_due; [exact Hs|].
      intros t' Ht'. pose proof (earliest_min _ _ E t' Ht'). lia.
  - apply earliest_None in E. rewrite advanceTo_none_due; [exact Hs|].
    rewrite E. intros ? [].
Qed.

Lemma run_wellShaped : forall script (s : @State A W),
  wellShaped s -> wellShaped (run fn opts script s).
Proof.
  unfold run. induction script as [|act script IH]; intros s Hs; [exact Hs|].
  cbn [fold_left]. apply IH. destruct act; cbn [step].
  - apply debounced_wellShaped. assumption.
  - apply advanceTo_wellShaped. assumption.
Qed.

Lemma initial_wellShaped : forall t0 w, wellShaped (@initial A W t0 w).
Proof. intros. constructor. Qed.


(** *** With a max-wait ceiling *)

Lemma maxWait_first_call : forall mw a (s : @State A W),
  immediate opts = false -> maxWait opts = Some mw -> 0 < mw -> idle s ->
  let s' := debounced fn opts a s in
  exists i j,
    timers s' = [mkTimer i (clock s + Z.max 0 (delay opts)) TrailingCb;
                 mkTimer j (clock s + mw) MaxWaitCb] /\
    timeout s' = Some i /\ maxTimeout s' = Some j /\
    pendingArgs s' = Some a /\ firstCallTime s' = clock s /\
    clock s' = clock s /\ executions s' = executions s.
Proof.
  intros mw a s Him Hmw Hpos. open_state s. rewrite Him, Hmw.
  intros (-> & -> & -> & -> & ->). exec.
  replace (mw - (cl - cl)) with mw by lia. rewrite (Z.max_r 0 mw) by lia.
  eauto 12.
Qed.

Lemma maxWait_not_rearmed : forall j a (s : @State A W),
  wellShaped s -> maxTimeout s = Some j ->
  let s' := debounced fn opts a s in
  maxTimeout s' = Some j /\
  filter isMaxWait (timers s') = filter isMaxWait (timers s).
Proof.
  intros j a s. open_state s.
  intros H ->. inversion H; subst; clear H; exec; cbv [isMaxWait cb]; break; auto.
Qed.

Lemma maxWait_fires : forall t a (s : @State A W),
  wellShaped s -> In t (timers s) -> cb t = MaxWaitCb ->
  pendingArgs s = Some a -> clock s <= due t ->
  let s' := fire fn opts t s in
  fullyReset (due t) s' /\ clock s' = due t /\
  executions s' = executions s ++ [(due t, a)] /\
  world s' = fn (due t) a (world s).
Proof.
  intros t a s. open_state s.
  intros H Hin Hcb -> Hle.
  inversion H; subst; clear H; cbn in Hin; pick Hin; try discriminate;
    cbn in Hle; fire_eqs; break; exec; ids; rewrite ?(Z.max_r cl e) by lia; auto 12.
Qed.

(** *** Resetting *)

Lemma fire_resets : forall t (s : @State A W),
  wellShaped s -> In t (timers s) ->
  let s' := fire fn opts t s in
  executions s' <> executions s -> fullyReset (clock s') s'.
Proof.
  intros t s. open_state s.
  intros H Hin.
  inversion H; subst; clear H; cbn in Hin; pick Hin;
    fire_eqs; break; exec; ids; intros Hex; try congruence; auto 12.
Qed.

Lemma leading_call_arms : forall a (s : @State A W),
  let s' := debounced fn opts a s in
  executions s' <> executions s ->
  immediate opts = true /\ lastInvokeTime s = 0 /\
  pendingArgs s' = None /\ firstCallTime s' = 0 /\ lastInvokeTime s' = clock s' /\
  executions s' = executions s ++ [(clock s, a)] /\
  world s' = fn (clock s) a (world s) /\
  exists i, timeout s' = Some i /\
            In (mkTimer i (clock s' + Z.max 0 (delay opts)) TrailingCb) (timers s').
Proof.
  intros a s. open_state s.
  destruct (immediate opts); [|cbn [andb]; break; exec; intros Hex; congruence].
  cbn [andb]. destruct (Z.eqb_spec lit 0) as [->|Hlit];
    [|break; exec; intros Hex; congruence].
  intros _.
  destruct mto, (maxWait opts); exec;
    repeat split; try reflexivity; eexists; (split; [reflexivity|]);
    repeat (apply in_or_app; (right; left; reflexivity) || left);
    apply in_or_app; right; left; reflexivity.
Qed.

(** *** A max-wait of zero *)

Lemma startMaxWaitTimer_undefined : forall (s : @State A W),
  maxWait opts = None -> startMaxWaitTimer opts s = s.
Proof.
  intros s H. unfold startMaxWaitTimer. rewrite H. destruct (maxTimeout s); reflexivity.
Qed.

Lemma zero_maxWait_arms : forall a (s : @State A W),
  maxWait opts = Some 0 -> clockSane s -> maxTimeout s = None ->
  let s' := debounced fn opts a s in
  exists j timeLeft,
    timeLeft <= 0 /\ maxTimeout s' = Some j /\
    In (mkTimer j (clock s + Z.max 0 timeLeft) MaxWaitCb) (timers s').
Proof.
  intros a s Hmw. open_state s. rewrite Hmw. intros [Hc Hf] ->. exec.
  eexists. eexists. split; [|split; [reflexivity|]].
  2: { apply in_or_app. right. left. reflexivity. }
  destruct (immediate opts && (lit =? 0))%bool; [lia|].
  destruct (Z.eqb_spec fct 0); lia.
Qed.

Lemma pending_maxWait_kept : forall j a (s : @State A W),
  maxTimeout s = Some j -> maxTimeout (debounced fn opts a s) = Some j.
Proof.
  intros j a s. open_state s. intros ->. destruct (maxWait opts); reflexivity.
Qed.

Lemma zero_maxWait_next_tick : forall a (s : @State A W),
  immediate opts = false -> maxWait opts = Some 0 -> idle s ->
  let s1 := debounced fn opts a s in
  let s2 := sleep fn opts 0 s1 in
  executions s1 = executions s /\
  executions s2 = executions s ++ [(clock s, a)] /\
  world s2 = fn (clock s) a (world s) /\
  clock s2 = clock s /\ idle s2.
Proof.
  intros a s Him Hmw Hidle s1 s2.
  assert (wellShaped s1) as Hs1.
  { apply debounced_wellShaped. destruct Hidle as (H1 & H2 & H3 & _).
    unfold wellShaped. rewrite H1, H2, H3. constructor. }
  assert (s1 = mkState (Some (nextId s)) (Some (S (nextId s))) (lastInvokeTime s)
                       (clock s) (Some a) (clock s)
                       [mkTimer (nextId s) (clock s + Z.max 0 (delay opts)) TrailingCb;
                        mkTimer (S (nextId s)) (clock s) MaxWaitCb]
                       (S (S (nextId s))) (world s) (executions s)) as E1.
  { subst s1. clear Hs1 s2. revert Hidle. open_state s. rewrite Him, Hmw.
    intros (-> & -> & -> & -> & ->). exec.
    replace (0 - (cl - cl)) with 0 by lia. rewrite Z.max_id, Z.add_0_r. reflexivity. }
  split; [rewrite E1; reflexivity|].
  subst s2. unfold sleep.
  destruct (Z.leb_spec (delay opts) 0) as [Hd|Hd].
  - (* the trailing timer is due at once as well, and it was set first *)
    rewrite (advanceTo_fires _ (mkTimer (nextId s) (clock s) TrailingCb) s1 Hs1).
    + rewrite E1. fire_eqs. rewrite Him. exec.
      rewrite Z.max_id, Z.add_0_r, Z.max_id. auto 12.
    + rewrite E1. cbn [timers earliest due]. rewrite (Z.max_l 0) by lia.
      rewrite Z.add_0_r, Z.leb_refl. reflexivity.
    + rewrite E1. cbn. lia.
  - (* the max-wait timer is due first *)
    rewrite (advanceTo_fires _ (mkTimer (S (nextId s)) (clock s) MaxWaitCb) s1 Hs1).
    + rewrite E1. fire_eqs. exec.
      rewrite Z.max_id, Z.add_0_r, Z.max_id. auto 12.
    + rewrite E1. cbn [timers earliest due]. rewrite (Z.max_r 0) by lia.
      destruct (Z.leb_spec (clock s + delay opts) (clock s)); [lia|reflexivity].
    + rewrite E1. cbn. lia.
Qed.

Lemma leading_first_call : forall a (s : @State A W),
  immediate opts = true -> lastInvokeTime s = 0 ->
  executions (debounced fn opts a s) = executions s ++ [(clock s, a)].
Proof.
  intros a s Him. open_state s. rewrite Him. intros ->.
  exec. destruct mto, (maxWait opts); reflexivity.
Qed.

Lemma call_literal : forall a to mto lit fct pa cl ts nid w ex,
  immediate opts = false ->
  debounced fn opts a (mkState to mto lit fct pa cl ts nid w ex)
  = let fct' := if Z.eqb fct 0 then cl else fct in
    let kept := match to with
                | Some id => filter (fun t => negb (Nat.eqb (tid t) id)) ts
                | None => ts
                end in
    let queue := kept ++ [mkTimer nid (cl + Z.max 0 (delay opts)) TrailingCb] in
    match mto, maxWait opts with
    | None, Some mw =>
        mkState (Some nid) (Some (S nid)) lit fct' (Some a) cl
                (queue ++ [mkTimer (S nid) (cl + Z.max 0 (mw - (cl - fct'))) MaxWaitCb])
                (S (S nid)) w ex
    | _, _ => mkState (Some nid) mto lit fct' (Some a) cl queue (S nid) w ex
    end.
Proof. intros. rewrite debounced_eq. rewrite H. reflexivity. Qed.

Lemma sleep_literal_quiet : forall d to mto lit fct pa cl ts nid w ex,
  0 <= d -> (forall t, In t ts -> cl + d < due t) ->
  sleep fn opts d (mkState to mto lit fct pa cl ts nid w ex)
  = mkState to mto lit fct pa (cl + d) ts nid w ex.
Proof.
  intros. unfold sleep. rewrite advanceTo_none_due by assumption.
  cbn. rewrite Z.max_r by lia. reflexivity.
Qed.

Lemma maxWait_example : forall (a1 a2 a3 a4 : A) (s : @State A W),
  immediate opts = false -> delay opts = 500 -> maxWait opts = Some 1000 ->
  idle s ->
  let script := [Call a1; Sleep 300; Call a2; Sleep 300; Call a3; Sleep 300; Call a4] in
  executions (run fn opts script s) = executions s /\
  executions (run fn opts (script ++ [Sleep 100]) s)
  = executions s ++ [(clock s + 1000, a4)].
Proof.
  intros a1 a2 a3 a4 s Him Hd Hmw Hidle script. subst script.
  revert Hidle. destruct s as [to mto lit fct pa cl ts nid w ex].
  intros (Hts & Hto & Hmto & Hpa & Hfct). cbn in Hts, Hto, Hmto, Hpa, Hfct. subst.
  unfold run. cbn [fold_left app step].
  assert (Hcall : forall a to mto lit fct pa cl ts nid w ex,
           debounced fn opts a (mkState to mto lit fct pa cl ts nid w ex)
           = match mto with
             | None =>
                 mkState (Some nid) (Some (S nid)) lit (if Z.eqb fct 0 then cl else fct)
                   (Some a) cl
                   ((match to with
                     | Some id => filter (fun t => negb (Nat.eqb (tid t) id)) ts
                     | None => ts
                     end ++ [mkTimer nid (cl + 500) TrailingCb])
                    ++ [mkTimer (S nid)
                          (cl + Z.max 0 (1000 - (cl - (if Z.eqb fct 0 then cl else fct))))
                          MaxWaitCb])
                   (S (S nid)) w ex
             | Some j =>
                 mkState (Some nid) (Some j) lit (if Z.eqb fct 0 then cl else fct)
                   (Some a) cl
                   (match to with
                    | Some id => filter (fun t => negb (Nat.eqb (tid t) id)) ts
                    | None => ts
                    end ++ [mkTimer nid (cl + 500) TrailingCb])
                   (S nid) w ex
             end).
  { intros x xto xmto xlit xfct xpa xcl xts xnid xw xex.
    rewrite call_literal by assumption. rewrite Hd, Hmw.
    destruct xmto; reflexivity. }
  rewrite (Hcall a1). cbn [app]. rewrite Z.eqb_refl.
  replace (1000 - (cl - cl)) with 1000 by lia. change (Z.max 0 1000) with 1000.
  rewrite sleep_literal_quiet; [|lia|intros t Hin; cbn in Hin; pick Hin; cbn; lia].
  rewrite (Hcall a2). cbn [filter tid]. ids. cbn [negb app].
  rewrite sleep_literal_quiet; [|lia|intros t Hin; cbn in Hin; pick Hin; cbn; lia].
  rewrite (Hcall a3). cbn [filter tid]. ids. cbn [negb app].
  rewrite sleep_literal_quiet; [|lia|intros t Hin; cbn in Hin; pick Hin; cbn; lia].
  rewrite (Hcall a4). cbn [filter tid]. ids. cbn [negb app].
  split; [reflexivity|].
  unfold sleep.
  rewrite (advanceTo_fires _ (mkTimer (S nid) (cl + 1000) MaxWaitCb)).
  - fire_eqs. exec. rewrite Z.max_r by lia. reflexivity.
  - unfold wellShaped. cbn [timers timeout maxTimeout nextId]. apply BothRearmed; lia.
  - cbn [timers earliest due].
    destruct (Z.leb_spec (cl + 1000) (cl + 300 + 300 + 300 + 500)); [reflexivity|lia].
  - cbn. lia.
Qed.

(** *** What holds of every state a trailing-edge debounce can reach *)

Lemma debounced_pending : forall a (s : @State A W),
  immediate opts = false -> pendingArgs (debounced fn opts a s) = Some a.
Proof.
  intros a s Him. destruct s as [to mto lit fct pa cl ts nid w ex].
  rewrite call_literal by assumption. cbv zeta.
  destruct mto, (maxWait opts); reflexivity.
Qed.

Lemma debounced_timely : forall a (s : @State A W),
  timely s -> timely (debounced fn opts a s).
Proof.
  intros a s. destruct s as [to mto lit fct pa cl ts nid w ex].
  rewrite debounced_eq. unfold timely. cbv zeta. cbn [timers clock].
  intros H t Hin.
  assert (forall t, In t (match to with
                          | Some id => filter (fun t => negb (Nat.eqb (tid t) id)) ts
                          | None => ts
                          end) -> cl <= due t) as Hkept.
  { intros t' Ht'. apply H. destruct to; [|exact Ht'].
    apply filter_In in Ht'. apply Ht'. }
  destruct mto, (maxWait opts); cbn [timers clock] in *;
    repeat (apply in_app_or in Hin; destruct Hin as [Hin|Hin]);
    try (apply Hkept; exact Hin);
    destruct Hin as [<-|[]]; cbn [due]; lia.
Qed.

Lemma advanceTo_cases : forall target (s : @State A W),
  wellShaped s ->
  (advanceTo fn opts target s = set_clock (Z.max (clock s) target) s /\
   forall t, In t (timers s) -> target < due t)
  \/
  (exists t, In t (timers s) /\
             advanceTo fn opts target s
             = set_clock (Z.max (clock (fire fn opts t s)) target) (fire fn opts t s)).
Proof.
  intros target s Hs.
  destruct (earliest (timers s)) as [t0|] eqn:E.
  - destruct (Z.leb_spec (due t0) target) as [Hle|Hgt].
    + right. exists t0. split; [apply earliest_In; assumption|].
      apply advanceTo_fires; assumption.
    + left.
      assert (forall t, In t (timers s) -> target < due t) as Hall.
      { intros t Ht. pose proof (earliest_min _ _ E t Ht). lia. }
      split; [|exact Hall]. apply advanceTo_none_due. exact Hall.
  - apply earliest_None in E. left.
    assert (forall t, In t (timers s) -> target < due t) as Hall
      by (rewrite E; intros ? []).
    split; [|exact Hall]. apply advanceTo_none_due. exact Hall.
Qed.

Lemma debounced_arms : forall a (s : @State A W), timers (debounced fn opts a s) <> [].
Proof.
  intros a s. destruct s as [to mto lit fct pa cl ts nid w ex].
  rewrite debounced_eq. cbv zeta.
  destruct mto, (maxWait opts); cbn [timers]; intros E;
    repeat (apply app_eq_nil in E; destruct E as [E ?]); discriminate.
Qed.

Lemma fire_idles : forall t a (s : @State A W),
  immediate opts = false -> wellShaped s -> In t (timers s) ->
  pendingArgs s = Some a -> idle (fire fn opts t s).
Proof.
  intros t a s Him. open_state s. intros H Hin ->.
  inversion H; subst; clear H; cbn in Hin; pick Hin;
    fire_eqs; rewrite ?Him; exec; auto 10.
Qed.

Lemma run_trailing_invariants : forall script (s : @State A W),
  immediate opts = false ->
  wellShaped s -> timely s -> armedWithArgs s -> quietIsIdle s ->
  let s' := run fn opts script s in
  wellShaped s' /\ timely s' /\ armedWithArgs s' /\ quietIsIdle s'.
Proof.
  unfold run. induction script as [|act script IH]; intros s Him Hs Ht Ha Hq; [auto|].
  cbn [fold_left]. apply IH; try assumption; destruct act; cbn [step].
  - apply debounced_wellShaped. assumption.
  - apply advanceTo_wellShaped. assumption.
  - apply debounced_timely. assumption.
  - destruct (advanceTo_cases (clock s + d) s Hs) as [[E Hall]|(t & Hin & E)];
      unfold sleep, timely; rewrite E; cbn [timers clock set_clock].
    + intros t Hin. specialize (Ht t Hin). specialize (Hall t Hin). lia.
    + destruct (fire_clears t s Hs Hin) as [Hnil _]. rewrite Hnil. intros ? [].
  - intros _. eexists. apply debounced_pending. assumption.
  - destruct (advanceTo_cases (clock s + d) s Hs) as [[E Hall]|(t & Hin & E)];
      unfold sleep, armedWithArgs; rewrite E; cbn [timers pendingArgs set_clock].
    + exact Ha.
    + destruct (fire_clears t s Hs Hin) as [Hnil _]. rewrite Hnil.
      intros H. contradiction.
  - intros E. exfalso. exact (debounced_arms _ _ E).
  - destruct (advanceTo_cases (clock s + d) s Hs) as [[E Hall]|(t & Hin & E)];
      unfold sleep, quietIsIdle; rewrite E.
    + exact Hq.
    + intros _. destruct Ha as [a Hpa]; [intros E'; rewrite E' in Hin; contradiction|].
      exact (fire_idles t a s Him Hs Hin Hpa).
Qed.

Lemma initial_invariants : forall t0 w,
  wellShaped (@initial A W t0 w) /\ timely (@initial A W t0 w) /\
  armedWithArgs (@initial A W t0 w) /\ quietIsIdle (@initial A W t0 w).
Proof.
  intros. split; [constructor|]. split; [intros ? []|].
  split; [intros H; contradiction|]. intros _. repeat split.
Qed.

(** *** The clock *)

Lemma debounced_clockSane : forall a (s : @State A W),
  clockSane s -> clockSane (debounced fn opts a s).
Proof.
  intros a s. open_state s. intros [Hc Hf].
  destruct mto, (maxWait opts); exec; (split; [assumption|]);
    destruct (immediate opts && (lit =? 0))%bool; try assumption;
    destruct (Z.eqb_spec fct 0); lia.
Qed.

Lemma fire_clockSane : forall t (s : @State A W),
  clockSane s -> clockSane (fire fn opts t s).
Proof.
  intros [i at_ [|]] s; open_state s; intros [Hc Hf]; fire_eqs; cbv zeta.
  - destruct (if immediate opts then None else pa); exec; lia.
  - destruct pa; exec; lia.
Qed.

Lemma run_clockSane : forall script (s : @State A W),
  wellShaped s -> clockSane s -> clockSane (run fn opts script s).
Proof.
  unfold run. induction script as [|act script IH]; intros s Hs Hc; [exact Hc|].
  cbn [fold_left]. apply IH; destruct act; cbn [step].
  - apply debounced_wellShaped. assumption.
  - apply advanceTo_wellShaped. assumption.
  - apply debounced_clockSane. assumption.
  - unfold sleep.
    destruct (advanceTo_cases (clock s + d) s Hs) as [[E _]|(t & _ & E)]; rewrite E.
    + destruct Hc as [Hc Hf]. unfold clockSane. cbn. lia.
    + pose proof (fire_clockSane t s Hc) as [Hc' Hf']. unfold clockSane. cbn. lia.
Qed.

(** *** The leading edge *)

(** Once the wrapped function has run, [lastInvokeTime] holds a time of
    the clock; unless that time is 0, no later call runs on the leading
    edge, and with [immediate = true] the trailing timer never executes. *)
Lemma no_leading_edge_after_execution : forall a (s : @State A W),
  lastInvokeTime s <> 0 -> executions (debounced fn opts a s) = executions s.
Proof.
  intros a s. open_state s. intros Hlit.
  destruct (Z.eqb_spec lit 0); [contradiction|].
  rewrite andb_false_r. destruct mto, (maxWait opts); reflexivity.
Qed.

Lemma trailing_timer_idle_when_immediate : forall i at_ (s : @State A W),
  immediate opts = true ->
  executions (fire fn opts (mkTimer i at_ TrailingCb) s) = executions s.
Proof.
  intros i at_ s Him. open_state s. fire_eqs. rewrite Him. reflexivity.
Qed.

Lemma run_app : forall p q (s : @State A W),
  run fn opts (p ++ q) s = run fn opts q (run fn opts p s).
Proof. intros. unfold run. apply fold_left_app. Qed.

(** *** A burst under the max-wait ceiling *)









End Facts.


(** With [immediate = false], [delay = 500] and [maxWait = 1000], calls
    every 300 ms are cut short by one execution 1000 ms after the first
    call, on the arguments pending at that moment. *)
Example maxWait_bounds_a_burst :
  executions (run noEffect (mkOptions false 500 (Some 1000))
                [Call 1%nat; Sleep 300; Call 2%nat; Sleep 300; Call 3%nat; Sleep 300;
                 Call 4%nat; Sleep 300; Call 5%nat]
                (initial 1000000 tt))
  = [(1001000, 4%nat)].
Proof. vm_compute. reflexivity. Qed.

(** C2, as stated, fails when [immediate] is true.  On the first call
    ([delay = 500], [maxWait = 1000], at time 1000000) the leading-edge
    [invoke] has already reset [firstCallTime] to 0 when [startMaxWaitTimer]
    reads it: the max-wait timer is armed for the time of the call itself,
    not for 1000 ms later, and when it fires, at the next tick, it cancels
    the trailing timer and executes nothing, no arguments being pending. *)
Lemma C2_leading_edge_arms_maxWait_at_once :
  let o := mkOptions true 500 (Some 1000) in
  let s := debounced noEffect o 7%nat (initial 1000000 tt) in
  executions s = [(1000000, 7%nat)] /\
  firstCallTime s = 0 /\
  timers s = [mkTimer 1 1000500 TrailingCb; mkTimer 2 1000000 MaxWaitCb] /\
  maxTimeout s = Some 2%nat /\
  timers (sleep noEffect o 0 s) = [] /\
  executions (sleep noEffect o 0 s) = [(1000000, 7%nat)].
Proof. vm_compute. repeat split. Qed.

(** C2, amended -- for every debounced function created with
    [immediate = false], a [maxWait > 0] and a [delay >= 0] that the host's
    timers can keep (at most [maxDelay] ms), at any point of its life: the
    first call of a
    burst (a call made while no timer is pending) arms a max-wait timer due
    exactly [maxWait] ms after that call; later calls keep that timer as it
    is, neither re-arming nor postponing it; whenever it fires, it cancels
    the pending trailing timer and executes the wrapped function at once
    with the arguments then pending.  In particular, with [delay = 500] and
    [maxWait = 1000], calls every 300 ms lead to an execution exactly
    1000 ms after the first call, on the arguments of the fourth call. *)
Theorem C2_maxWait_ceiling :
  forall (A W : Type) (fn : Z -> A -> W -> W) (opts : Options) (mw : Z),
    immediate opts = false -> maxWait opts = Some mw ->
    0 < mw <= maxDelay -> 0 <= delay opts <= maxDelay ->
    forall history t0 w,
      let s : @State A W := run fn opts history (initial t0 w) in
      (forall a,
          timers s = [] ->
          let s' := debounced fn opts a s in
          exists i j,
            timers s' = [mkTimer i (clock s + Z.max 0 (delay opts)) TrailingCb;
                         mkTimer j (clock s + mw) MaxWaitCb] /\
            timeout s' = Some i /\ maxTimeout s' = Some j /\
            pendingArgs s' = Some a /\ firstCallTime s' = clock s /\
            clock s' = clock s /\ executions s' = executions s)
      /\
      (forall j a,
          maxTimeout s = Some j ->
          let s' := debounced fn opts a s in
          maxTimeout s' = Some j /\
          filter isMaxWait (timers s') = filter isMaxWait (timers s))
      /\
      (forall t,
          In t (timers s) -> cb t = MaxWaitCb ->
          exists a,
            pendingArgs s = Some a /\
            let s' := fire fn opts t s in
            fullyReset (due t) s' /\ clock s' = due t /\
            executions s' = executions s ++ [(due t, a)] /\
            world s' = fn (due t) a (world s))
      /\
      (delay opts = 500 -> mw = 1000 ->
       forall a1 a2 a3 a4,
         timers s = [] ->
         let script :=
           [Call a1; Sleep 300; Call a2; Sleep 300; Call a3; Sleep 300; Call a4] in
         executions (run fn opts script s) = executions s /\
         executions (run fn opts (script ++ [Sleep 100]) s)
         = executions s ++ [(clock s + 1000, a4)]).
Proof.
  intros A W fn opts mw Him Hmw [Hpos _] _ history t0 w s.
  destruct (initial_invariants (A := A) t0 w) as (I1 & I2 & I3 & I4).
  destruct (run_trailing_invariants fn opts history _ Him I1 I2 I3 I4)
    as (Hs & Ht & Ha & Hq).
  fold s in Hs, Ht, Ha, Hq.
  split; [|split; [|split]].
  - intros a Hquiet. apply maxWait_first_call; try assumption. apply Hq. exact Hquiet.
  - intros j a Hj. apply maxWait_not_rearmed; assumption.
  - intros t Hin Hcb.
    destruct Ha as [a Hpa]; [intros E; rewrite E in Hin; contradiction|].
    exists a. split; [exact Hpa|].
    apply maxWait_fires; try assumption. apply Ht. exact Hin.
  - intros Hd -> a1 a2 a3 a4 Hquiet.
    apply maxWait_example; try assumption. apply Hq. exact Hquiet.
Qed.

Lemma C2_maxWait_ceiling_witness :
  let o := mkOptions false 500 (Some 1000) in
  executions (run noEffect o
                [Call 1%nat; Sleep 300; Call 2%nat; Sleep 300; Call 3%nat; Sleep 300;
                 Call 4%nat; Sleep 100]
                (initial 1000000 tt))
  = [(1001000, 4%nat)].
Proof.
  intros o.
  refine (proj2 (proj2 (proj2 (proj2
            (C2_maxWait_ceiling nat unit noEffect o 1000 eq_refl eq_refl _ _
               [] 1000000 tt)))
            eq_refl eq_refl 1%nat 2%nat 3%nat 4%nat _)).
  - unfold maxDelay. lia.
  - cbn. unfold maxDelay. lia.
  - reflexivity.
Defined.

(** C3 -- with [immediate = true] only the first call ever made runs on the
    leading edge: [lastInvokeTime] is never 0 again afterwards.  The first
    call of a later burst, made after a quiet period, is not executed on the
    leading edge, and its trailing timer fires without executing anything
    (with or without a [maxWait]). *)
Theorem C3_later_bursts_have_no_leading_edge :
  let o := mkOptions true 100 (Some 1000) in
  let o' := mkOptions true 100 None in
  let quiet := run noEffect o [Call 1%nat; Sleep 4000] (initial 1000000 tt) in
  let quiet' := run noEffect o' [Call 1%nat; Sleep 4000] (initial 1000000 tt) in
  (executions quiet = [(1000000, 1%nat)] /\ timers quiet = [] /\
   lastInvokeTime quiet = 1000000 /\
   executions (run noEffect o [Call 2%nat] quiet) = [(1000000, 1%nat)] /\
   executions (run noEffect o [Call 2%nat; Sleep 100000] quiet) = [(1000000, 1%nat)])
  /\
  (executions quiet' = [(1000000, 1%nat)] /\ timers quiet' = [] /\
   executions (run noEffect o' [Call 2%nat] quiet') = [(1000000, 1%nat)] /\
   executions (run noEffect o' [Call 2%nat; Sleep 100000] quiet') = [(1000000, 1%nat)]).
Proof. vm_compute. repeat split. Qed.

(** C8, as stated, fails on the leading edge: the call that executes the
    wrapped function goes on to arm the trailing timer, so a timer is armed
    right after that execution. *)
Lemma C8_leading_edge_leaves_timer_armed :
  let o := mkOptions true 100 (Some 1000) in
  let s := initial 1000 tt in
  let s' := debounced noEffect o 7%nat s in
  executions s' <> executions s /\ ~ fullyReset (clock s') s'.
Proof.
  vm_compute. split; [discriminate|]. intros (_ & _ & _ & H & _). discriminate.
Qed.

(** C8, amended -- after every execution of the wrapped function
    [pendingArgs] and [firstCallTime] are cleared and [lastInvokeTime] is the
    time of the execution.  When the execution was triggered by the trailing
    or by the max-wait timer, both handles are cleared as well and no timer
    remains armed.  When it happened on the leading edge of a call, that
    call goes on to arm the trailing timer, due [delay] ms later. *)
Theorem C8_reset_after_execution :
  forall (A W : Type) (fn : Z -> A -> W -> W) (opts : Options) history t0 w,
    let s : @State A W := run fn opts history (initial t0 w) in
    (forall t,
        In t (timers s) ->
        let s' := fire fn opts t s in
        executions s' <> executions s -> fullyReset (clock s') s')
    /\
    (forall a,
        let s' := debounced fn opts a s in
        executions s' <> executions s ->
        pendingArgs s' = None /\ firstCallTime s' = 0 /\
        lastInvokeTime s' = clock s' /\
        exists i, timeout s' = Some i /\
                  In (mkTimer i (clock s' + Z.max 0 (delay opts)) TrailingCb) (timers s')).
Proof.
  intros A W fn opts history t0 w s. split.
  - intros t Hin. apply fire_resets; [|exact Hin].
    apply run_wellShaped. apply initial_wellShaped.
  - intros a s' Hex.
    destruct (leading_call_arms fn opts a s Hex) as (_ & _ & H1 & H2 & H3 & _ & _ & H4).
    auto.
Qed.

Lemma C8_reset_after_execution_witness :
  let o := mkOptions false 100 None in
  let s := run noEffect o [Call 7%nat] (initial 1000 tt) in
  fullyReset 1100 (fire noEffect o (mkTimer 1 1100 TrailingCb) s).
Proof.
  intros o s.
  refine (proj1 (C8_reset_after_execution nat unit noEffect o [Call 7%nat] 1000 tt)
                (mkTimer 1 1100 TrailingCb) _ _).
  - left. reflexivity.
  - vm_compute. discriminate.
Defined.

End DebounceFacts.

(** ** The state manager *)

Module ManagerFacts.
Import JS Manager.

Lemma await_abrupt : forall (T : Type) (o : Outcome T) e,
  o = Throws e \/ o = Rejects e -> await o = Abrupt e.
Proof. intros T o e [->| ->]; reflexivity. Qed.

(** C5, as stated, fails for the second variant of the class: its [load]
    re-throws without logging. *)
Lemma C5_second_variant_rethrows_silently :
  let m := construct V2 (rejectingLoad "storage unavailable") None None 1000 emptyEnv in
  fst (load m) = Rejected "storage unavailable" /\
  console (env (worldOf (snd (load m)))) = [].
Proof. vm_compute. split; reflexivity. Qed.

(** C5, amended -- when the [loadCallback] throws or rejects, [load()]
    rejects with that same error and the [state] object is left exactly as
    it was (no field is assigned).  The first variant of the class logs the
    error with [console.error] before re-throwing; the second variant
    re-throws without logging. *)
Theorem C5_failed_load_rethrows : forall m outcome v e,
  loadCallback m (env (worldOf m)) = (outcome, v) ->
  outcome = Throws e \/ outcome = Rejects e ->
  fst (load m) = Rejected e /\
  state (worldOf (snd (load m))) = state (worldOf m) /\
  console (env (worldOf (snd (load m))))
  = console v ++ match variant m with
                 | V1 => [ConsoleError "StateManager: Failed to load state from storage:" e]
                 | V2 => []
                 end.
Proof.
  intros m outcome v e Hcb Hfail. apply await_abrupt in Hfail.
  unfold load. rewrite Hcb, Hfail. cbn.
  repeat split. destruct (variant m); cbn; [reflexivity|].
  rewrite app_nil_r. reflexivity.
Qed.

Lemma C5_failed_load_rethrows_witness :
  let m := construct V1 (rejectingLoad "storage unavailable") None None 1000 emptyEnv in
  fst (load m) = Rejected "storage unavailable" /\
  state (worldOf (snd (load m))) = [] /\
  console (env (worldOf (snd (load m))))
  = [ConsoleError "StateManager: Failed to load state from storage:" "storage unavailable"].
Proof.
  intros m.
  exact (C5_failed_load_rethrows m (Rejects "storage unavailable") emptyEnv
           "storage unavailable" eq_refl (or_intror eq_refl)).
Defined.

(** *** Saving *)

Lemma save_fulfilled : forall m, fst (save m) = Fulfilled.
Proof. intros m. unfold save. destruct (debouncedSave m); reflexivity. Qed.

Lemma save_without_callback : forall variant loadCallback given t0 v,
  let m := construct variant loadCallback None given t0 v in
  save m = (Fulfilled, m).
Proof. intros [|] loadCallback given t0 v; reflexivity. Qed.

(** A failing [saveCallback] inside the wrapped closure: the error ends
    in a promise nobody awaits; only the first variant logs it. *)
Lemma saveClosure_failure : forall variant callback t w outcome v e,
  callback (state w) (env w) = (outcome, v) ->
  outcome = Throws e \/ outcome = Rejects e ->
  saveClosure variant (Some callback) t tt w
  = mkWorld (state w)
      (unhandled e
         match variant with
         | V1 => console_error "StateManager: Failed to save state to storage:" e v
         | V2 => v
         end).
Proof.
  intros variant callback t w outcome v e Hcb Hfail. apply await_abrupt in Hfail.
  unfold saveClosure, structuredClone, snapshot. rewrite Hcb, Hfail. reflexivity.
Qed.

(** C6 -- in the second variant of the class an error of the [saveCallback]
    is not logged at all, although the comment in its [save()] says that
    errors from debounced saves will be logged: the [catch] block only
    re-throws into a promise that [invoke] dropped.  [save()] itself is
    fulfilled and the error never reaches its caller. *)
Theorem C6_second_variant_save_error_not_logged :
  let m := construct V2 (resolvingLoad []) (Some (rejectingSave "quota exceeded"))
                     (Some (Debounce.mkRawOptions None (Some 500) (Some 1000)))
                     1000000 emptyEnv in
  let m1 := snd (save m) in
  let m2 := sleep 500 m1 in
  fst (save m) = Fulfilled /\
  Debounce.executions (ctl m2) = [(1000500, tt)] /\
  console (env (worldOf m2)) = [] /\
  unhandledRejections (env (worldOf m2)) = ["quota exceeded"].
Proof. vm_compute. repeat split. Qed.

(** The same scenario in the first variant: the error is logged. *)
Example first_variant_logs_save_error :
  let m := construct V1 (resolvingLoad []) (Some (rejectingSave "quota exceeded"))
                     (Some (Debounce.mkRawOptions None (Some 500) (Some 1000)))
                     1000000 emptyEnv in
  let m2 := sleep 500 (snd (save m)) in
  fst (save m) = Fulfilled /\
  console (env (worldOf m2))
  = [ConsoleError "StateManager: Failed to save state to storage:" "quota exceeded"] /\
  unhandledRejections (env (worldOf m2)) = ["quota exceeded"].
Proof. vm_compute. repeat split. Qed.

(** *** The default [maxWait] *)


Lemma passedOptions_default : forall given,
  maxWaitOmitted given = true ->
  opt_maxWait (defaultOptions given) = 0 /\
  Debounce.maxWait (passedOptions (defaultOptions given)) = Some 0.
Proof.
  intros [[im d [mw|]]|] H; try discriminate; split; reflexivity.
Qed.

Lemma save_calls_debounced : forall variant loadCallback callback given t0 v c,
  let m0 := construct variant loadCallback (Some callback) given t0 v in
  ctl (snd (save (set_ctl c m0)))
  = Debounce.debounced (saveClosure variant (Some callback))
                       (passedOptions (defaultOptions given)) tt c.
Proof. reflexivity. Qed.

(** C10, as stated, fails for calls made in the same turn and when
    [immediate] is true.  Without any [debounceOptions], a second call made
    before the next timer tick arms no max-wait timer, the one armed by the
    first call being still pending.  With [{ delay: 500, immediate: true }]
    and no [maxWait], the first call runs the save on the leading edge,
    during the call, and the next timer tick executes nothing. *)
Lemma C10_not_every_call_arms_nor_waits_for_the_tick :
  let plain := construct V1 (resolvingLoad []) (Some resolvingSave) None
                         1000000 emptyEnv in
  let leading := construct V1 (resolvingLoad []) (Some resolvingSave)
                           (Some (Debounce.mkRawOptions (Some true) (Some 500) None))
                           1000000 emptyEnv in
  (Debounce.timers (ctl (snd (save plain)))
   = [Debounce.mkTimer 1 1000000 Debounce.TrailingCb;
      Debounce.mkTimer 2 1000000 Debounce.MaxWaitCb] /\
   Debounce.timers (ctl (snd (save (snd (save plain)))))
   = [Debounce.mkTimer 2 1000000 Debounce.MaxWaitCb;
      Debounce.mkTimer 3 1000000 Debounce.TrailingCb])
  /\
  (Debounce.executions (ctl (snd (save leading))) = [(1000000, tt)] /\
   Debounce.executions (ctl (sleep 0 (snd (save leading)))) = [(1000000, tt)]).
Proof. vm_compute. repeat split. Qed.

(** C10, amended -- a [maxWait] of 0 does not switch the max-wait mechanism
    off, only [undefined] does, and the constructor turns an omitted
    [maxWait] into 0.  For such a manager, after any sequence of calls of
    the debounced save and of waits, every call made while no max-wait
    timer is pending arms one whose computed delay
    [maxWait - (now - firstCallTime)] is [<= 0] (a call made while one is
    pending keeps that one).  When [immediate] is false the wrapped save
    therefore runs at the next timer tick after the first call of a burst,
    whatever the configured delay; when [immediate] is true the first call
    of the manager already runs it on the leading edge. *)
Theorem C10_zero_maxWait_by_default :
  forall variant loadCallback callback given t0 v history,
    maxWaitOmitted given = true -> 0 <= t0 ->
    let m0 := construct variant loadCallback (Some callback) given t0 v in
    let o := passedOptions (debounceOptions m0) in
    let c := Debounce.run (saveClosure variant (Some callback)) o history (ctl m0) in
    let m := set_ctl c m0 in
    opt_maxWait (debounceOptions m0) = 0 /\
    Debounce.maxWait o = Some 0 /\
    (forall (o' : Debounce.Options) (c' : @Debounce.State unit World),
        Debounce.maxWait o' = None -> Debounce.startMaxWaitTimer o' c' = c') /\
    (Debounce.maxTimeout c = None ->
     let m' := snd (save m) in
     exists j timeLeft,
       timeLeft <= 0 /\ Debounce.maxTimeout (ctl m') = Some j /\
       In (Debounce.mkTimer j (Debounce.clock c + Z.max 0 timeLeft) Debounce.MaxWaitCb)
          (Debounce.timers (ctl m'))) /\
    (forall j, Debounce.maxTimeout c = Some j ->
               Debounce.maxTimeout (ctl (snd (save m))) = Some j) /\
    (opt_immediate (debounceOptions m0) = false ->
     Debounce.timers c = [] ->
     let m1 := snd (save m) in
     let m2 := sleep 0 m1 in
     Debounce.executions (ctl m1) = Debounce.executions c /\
     Debounce.executions (ctl m2)
     = Debounce.executions c ++ [(Debounce.clock c, tt)] /\
     Debounce.idle (ctl m2)) /\
    (opt_immediate (debounceOptions m0) = true ->
     Debounce.executions (ctl (snd (save m0))) = [(t0, tt)]).
Proof.
  intros variant loadCallback callback given t0 v history Hgiven Ht0 m0 o c m.
  destruct (passedOptions_default given Hgiven) as [Hmw Ho].
  change (debounceOptions m0) with (defaultOptions given) in *.
  set (fn := saveClosure variant (Some callback)) in *.
  assert (forall c', ctl (snd (save (set_ctl c' m0))) = Debounce.debounced fn o tt c')
    as Hsave by (intros c'; apply save_calls_debounced).
  assert (Debounce.wellShaped c) as Hshape.
  { apply DebounceFacts.run_wellShaped. apply DebounceFacts.initial_wellShaped. }
  assert (Debounce.clockSane c) as Hsane.
  { apply DebounceFacts.run_clockSane; [apply DebounceFacts.initial_wellShaped|].
    split; cbn; assumption. }
  split; [exact Hmw|]. split; [exact Ho|]. split.
  { intros o' c' Ho'. apply DebounceFacts.startMaxWaitTimer_undefined. exact Ho'. }
  split.
  { intros Hnone m'. subst m' m. rewrite Hsave.
    apply DebounceFacts.zero_maxWait_arms; assumption. }
  split.
  { intros j Hj. subst m. rewrite Hsave.
    apply DebounceFacts.pending_maxWait_kept. exact Hj. }
  split.
  { intros Him Hquiet m1 m2.
    assert (Debounce.idle c) as Hidle.
    { destruct (DebounceFacts.initial_invariants (A := unit) t0 (mkWorld [] v))
        as (I1 & I2 & I3 & I4).
      destruct (DebounceFacts.run_trailing_invariants fn o history _ Him I1 I2 I3 I4)
        as (_ & _ & _ & Hq).
      apply Hq. exact Hquiet. }
    assert (ctl m2 = Debounce.sleep fn o 0 (Debounce.debounced fn o tt c)) as E2
      by reflexivity.
    subst m1 m. rewrite E2, Hsave.
    destruct (DebounceFacts.zero_maxWait_next_tick fn o tt c Him Ho Hidle)
      as (H1 & H2 & _ & _ & H5).
    auto. }
  intros Him.
  change m0 with (set_ctl (Debounce.initial t0 (mkWorld [] v)) m0). rewrite Hsave.
  apply (DebounceFacts.leading_first_call fn o tt (Debounce.initial t0 (mkWorld [] v)) Him).
  reflexivity.
Qed.

Lemma C10_zero_maxWait_by_default_witness :
  let m0 := construct V1 (resolvingLoad []) (Some resolvingSave) None 1000000 emptyEnv in
  Debounce.executions (ctl (snd (save m0))) = [] /\
  Debounce.executions (ctl (sleep 0 (snd (save m0)))) = [(1000000, tt)].
Proof.
  intros m0.
  pose proof (C10_zero_maxWait_by_default V1 (resolvingLoad []) resolvingSave None
                1000000 emptyEnv [] eq_refl) as H.
  assert (0 <= 1000000) as Ht0 by (intros E; discriminate E).
  destruct (H Ht0) as (_ & _ & _ & _ & _ & Hnext & _).
  destruct (Hnext eq_refl eq_refl) as (H1 & H2 & _).
  split; [exact H1|exact H2].
Defined.

End ManagerFacts.

(** ** The storage binding *)

Module BindingFacts.
Import JS Manager Binding.

Section Facts.
Variable defaultStorageObject : list (string * Value).
Variable variant : Variant.


Lemma loadState_backend : forall v,
  backend (snd (loadState defaultStorageObject v)) = backend v.
Proof.
  intros v. unfold loadState. destruct (await (storage_get (backend v))); reflexivity.
Qed.

Lemma load_keeps_controller : forall m,
  loadCallback m = loadState defaultStorageObject ->
  let m' := snd (load m) in
  writes (backend (env (worldOf m'))) = writes (backend (env (worldOf m))) /\
  Debounce.executions (ctl m') = Debounce.executions (ctl m) /\
  Debounce.timers (ctl m') = Debounce.timers (ctl m) /\
  loadCallback m' = loadCallback m.
Proof.
  intros m Hcb. unfold load. rewrite Hcb.
  pose proof (loadState_backend (env (worldOf m))) as Hb.
  destruct (loadState defaultStorageObject (env (worldOf m))) as [outcome v].
  cbn [snd] in Hb. destruct (await outcome); cbn; rewrite ?Hb; auto.
  destruct (Manager.variant m); cbn; rewrite ?Hb; auto.
Qed.

Lemma init_guarded : forall t0 v0, guarded defaultStorageObject v0 (init defaultStorageObject variant t0 v0).
Proof.
  intros t0 v0. split; [reflexivity|]. split; [|discriminate].
  intros _. repeat split.
Qed.

Lemma sleep_without_timers : forall d m,
  Debounce.timers (ctl m) = [] ->
  let m' := Manager.sleep d m in
  worldOf m' = worldOf m /\
  Debounce.executions (ctl m') = Debounce.executions (ctl m) /\
  Debounce.timers (ctl m') = [] /\
  loadCallback m' = loadCallback m.
Proof.
  intros d m Hts. unfold Manager.sleep, Debounce.sleep, worldOf.
  cbn [ctl set_ctl loadCallback].
  rewrite DebounceFacts.advanceTo_none_due by (rewrite Hts; intros ? []).
  cbn. auto.
Qed.

Lemma handle_guarded : forall v0 b e,
  guarded defaultStorageObject v0 b -> guarded defaultStorageObject v0 (handle defaultStorageObject b e).
Proof.
  intros v0 b e Hg.
  destruct b as [loaded registered m ph calls].
  pose proof Hg as (Hcb & Hdown & Hup). cbn [storageLoaded phase stateManager] in *.
  destruct e; cbn [handle phase storageLoaded autoSaveEffectRegistered stateManager saveCalls].
  - (* LoadSettles *)
    destruct ph; try exact Hg.
    destruct (load_keeps_controller m Hcb) as (Hw & Hex & Hts & Hcb').
    destruct (load m) as [r m'] eqn:El. cbn [snd] in *.
    split; [cbn; congruence|]. split; [|intros H; specialize (Hup H); discriminate].
    intros H. destruct (Hdown H) as (H1 & H2 & H3 & H4).
    unfold untouched, persisted in *. cbn [saveCalls stateManager] in *.
    repeat split; congruence.
  - (* LoaderResumes *)
    destruct ph as [|[|err]|]; try exact Hg.
    + destruct (storage_set _ _) as [outcome bk].
      split; [exact Hcb|]. split; [discriminate|reflexivity].
    + split; [exact Hcb|]. split; [|intros H; specialize (Hup H); discriminate].
      intros H. destruct (Hdown H) as (H1 & H2 & H3 & H4).
      unfold untouched, persisted in *. cbn in *. auto.
  - (* InitialiseStorageAutoSave *)
    destruct registered; [exact Hg|].
    split; [exact Hcb|]. split; [|exact Hup].
    intros H. destruct (Hdown H) as (H1 & H2 & H3 & H4). repeat split; assumption.
  - (* EffectRuns *)
    destruct registered; [|exact Hg].
    destruct loaded; cbn [negb]; [|exact Hg].
    split; [|split; [discriminate|intros _; apply Hup; reflexivity]].
    unfold save. destruct (debouncedSave m); cbn [snd]; exact Hcb.
  - (* Mutate *)
    split; [exact Hcb|]. split; [|exact Hup].
    intros H. destruct (Hdown H) as (H1 & H2 & H3 & H4).
    unfold untouched, persisted in *. cbn in *. auto.
  - (* Elapse *)
    split; [|split; [|exact Hup]].
    + cbn. exact Hcb.
    + intros H. destruct (Hdown H) as (H1 & H2 & H3 & H4).
      destruct (sleep_without_timers d m H4) as (Hw & Hex & Hts & _).
      unfold untouched, persisted in *. cbn [saveCalls stateManager set_manager] in *.
      rewrite Hw, Hex, Hts. auto.
  - (* BackendFault *)
    split; [exact Hcb|]. split; [|exact Hup].
    intros H. destruct (Hdown H) as (H1 & H2 & H3 & H4).
    unfold untouched, persisted in *. cbn in *. auto.
Qed.

Lemma play_snoc : forall events e b,
  play defaultStorageObject (events ++ [e]) b
  = handle defaultStorageObject (play defaultStorageObject events b) e.
Proof. intros. unfold play. rewrite fold_left_app. reflexivity. Qed.

Lemma play_guarded : forall v0 events b,
  guarded defaultStorageObject v0 b -> guarded defaultStorageObject v0 (play defaultStorageObject events b).
Proof.
  intros v0 events. induction events as [|e events IH] using rev_ind; intros b Hb.
  - exact Hb.
  - rewrite play_snoc. apply handle_guarded. apply IH. exact Hb.
Qed.

(** Only the resuming loader raises the guard, and only after a
    fulfilled [load()]. *)
Lemma guard_raised_by_loader : forall b e,
  storageLoaded (handle defaultStorageObject b e) = true ->
  storageLoaded b = true \/ (e = LoaderResumes /\ phase b = LoadSettled Fulfilled).
Proof.
  intros [loaded registered m ph calls] e.
  destruct e; cbn [handle phase storageLoaded autoSaveEffectRegistered stateManager];
    try (intros H; left; exact H).
  - destruct ph; [|intros H; left; exact H..].
    destruct (load m). intros H. left. exact H.
  - destruct ph as [|[|err]|]; try (intros H; left; exact H).
    intros _. right. split; reflexivity.
  - destruct registered; intros H; left; exact H.
  - destruct registered; [|intros H; left; exact H].
    destruct loaded; cbn [negb]; intros H; left; [reflexivity|exact H].
Qed.

Lemma phase_settled_by_load : forall b e r,
  phase (handle defaultStorageObject b e) = LoadSettled r ->
  phase b = LoadSettled r \/
  (e = LoadSettles /\ phase b = AwaitingLoad /\ fst (load (stateManager b)) = r).
Proof.
  intros [loaded registered m ph calls] e r.
  destruct e; cbn [handle phase storageLoaded autoSaveEffectRegistered stateManager];
    try (intros H; left; exact H).
  - destruct ph; [|intros H; left; exact H..].
    destruct (load m) as [r' m'] eqn:El. cbn [phase fst]. intros H.
    injection H as ->. right. auto.
  - destruct ph as [|[|err]|]; try (intros H; left; exact H).
    + destruct (storage_set _ _). discriminate.
    + discriminate.
  - destruct registered; intros H; left; exact H.
  - destruct registered; [|intros H; left; exact H].
    destruct loaded; cbn [negb]; intros H; left; exact H.
Qed.

Lemma settled_history : forall events b0 r,
  phase (play defaultStorageObject events b0) = LoadSettled r ->
  phase b0 = LoadSettled r \/
  exists pre post,
    events = pre ++ LoadSettles :: post /\
    phase (play defaultStorageObject pre b0) = AwaitingLoad /\
    fst (load (stateManager (play defaultStorageObject pre b0))) = r.
Proof.
  induction events as [|e events IH] using rev_ind; intros b0 r H.
  - left. exact H.
  - rewrite play_snoc in H. apply phase_settled_by_load in H.
    destruct H as [H|(-> & Hph & Hload)].
    + destruct (IH b0 r H) as [H0|(pre & post & -> & Hph & Hload)]; [left; exact H0|].
      right. exists pre, (post ++ [e]). rewrite <- app_assoc. auto.
    + right. exists events, []. auto.
Qed.

Lemma loaded_history : forall events b0,
  storageLoaded (play defaultStorageObject events b0) = true ->
  storageLoaded b0 = true \/
  exists pre post,
    events = pre ++ LoaderResumes :: post /\
    phase (play defaultStorageObject pre b0) = LoadSettled Fulfilled.
Proof.
  induction events as [|e events IH] using rev_ind; intros b0 H.
  - left. exact H.
  - rewrite play_snoc in H. apply guard_raised_by_loader in H.
    destruct H as [H|(-> & Hph)].
    + destruct (IH b0 H) as [H0|(pre & post & -> & Hph)]; [left; exact H0|].
      right. exists pre, (post ++ [e]). rewrite <- app_assoc. auto.
    + right. exists events, []. auto.
Qed.

(** C9 -- mutating the state object before the initial [load()] has
    resolved never triggers a persistence call.  As long as the loader is
    suspended at its [await] the guard [storageLoaded] is false; while the
    guard is false a run of the auto-save effect returns without calling
    [save()], so whatever has happened so far (mutations, effect runs,
    time passing) [save()] was never called, the wrapped save never ran
    and the storage area was never written; and the guard is only ever
    raised by the loader resuming after a [load()] that was fulfilled. *)
Theorem C9_no_save_before_load : forall t0 v0 events,
  let start := init defaultStorageObject variant t0 v0 in
  let b := play defaultStorageObject events start in
  (phase b = AwaitingLoad -> storageLoaded b = false) /\
  (storageLoaded b = false ->
     handle defaultStorageObject b EffectRuns = b /\
     saveCalls b = 0%nat /\
     persisted b = writes (backend v0) /\
     Debounce.executions (ctl (stateManager b)) = []) /\
  (storageLoaded b = true ->
     exists pre mid post,
       events = pre ++ LoadSettles :: mid ++ LoaderResumes :: post /\
       fst (load (stateManager (play defaultStorageObject pre start))) = Fulfilled).
Proof.
  intros t0 v0 events start b.
  destruct (play_guarded v0 events start (init_guarded t0 v0)) as (_ & Hdown & Hup).
  fold b in Hdown, Hup.
  split; [|split].
  - intros Hph. destruct (storageLoaded b); [|reflexivity].
    rewrite Hup in Hph by reflexivity. discriminate.
  - intros Hfalse. destruct (Hdown Hfalse) as (H1 & H2 & H3 & _).
    split; [|auto].
    destruct b as [loaded registered m ph calls]. cbn in Hfalse. subst loaded.
    cbn [handle autoSaveEffectRegistered storageLoaded negb].
    destruct registered; reflexivity.
  - intros Htrue. subst b.
    destruct (loaded_history events start Htrue) as [H0|(pre & post & -> & Hph)];
      [discriminate|].
    destruct (settled_history pre start Fulfilled Hph)
      as [H0|(pre' & mid & -> & _ & Hload)]; [discriminate|].
    exists pre', mid, post. split; [|exact Hload].
    rewrite <- app_assoc. reflexivity.
Qed.
End Facts.

Lemma C9_no_save_before_load_witness :
  persisted
    (play sampleDefaults
       [InitialiseStorageAutoSave; Mutate "theme" (VString "dark"); EffectRuns;
        Elapse 2000]
       (init sampleDefaults V2 1000000 emptyEnv))
  = [].
Proof.
  exact (proj1 (proj2 (proj2
           (proj1 (proj2
              (C9_no_save_before_load sampleDefaults V2 1000000 emptyEnv
                 [InitialiseStorageAutoSave; Mutate "theme" (VString "dark"); EffectRuns;
                  Elapse 2000]))
              eq_refl)))).
Defined.

(** Once the load has been fulfilled and the loader has resumed, the same
    mutation is persisted, 500 ms after the effect ran. *)
Example save_after_load :
  persisted
    (play sampleDefaults
       [LoadSettles; LoaderResumes; InitialiseStorageAutoSave;
        Mutate "theme" (VString "dark"); EffectRuns; Elapse 500]
       (init sampleDefaults V2 1000000 emptyEnv))
  = [sampleDefaults; [("theme", VString "dark"); ("vol", VNumber 5%float)]].
Proof. vm_compute. reflexivity. Qed.

End BindingFacts.

(** * Further properties *)

(** ** The sanitizer: shape of the result, defaults, preserved data *)

Module SanitizerLaws.
Import JS Sanitizer.

Lemma forall2b_diagonal : forall (X : Type) (f : X -> X -> bool) (l : list X),
  forall2b f l l = true -> forall x, In x l -> f x x = true.
Proof.
  intros X f l. induction l as [|y l IH]; intros H x Hin; [contradiction|].
  cbn in H. apply andb_prop in H. destruct H as [Hy Hl].
  destruct Hin as [<-|Hin]; [exact Hy|]. apply IH; assumption.
Qed.

Lemma forall2b_map_left : forall (X : Type) (f : X -> X -> bool) (g : X -> X) (l : list X),
  (forall x, In x l -> f (g x) x = true) -> forall2b f (map g l) l = true.
Proof.
  intros X f g l. induction l as [|y l IH]; intros H; [reflexivity|].
  cbn. rewrite (H y (or_introl eq_refl)). cbn. apply IH.
  intros x Hx. apply H. right. exact Hx.
Qed.

Lemma forall2b_Forall2 : forall (X Y : Type) (f : X -> Y -> bool) xs ys,
  forall2b f xs ys = true -> Forall2 (fun x y => f x y = true) xs ys.
Proof.
  intros X Y f xs ys. revert xs.
  induction ys as [|y ys IH]; intros [|x xs] H; try discriminate; [constructor|].
  cbn in H. apply andb_prop in H. destruct H as [Hxy Hrest].
  constructor; [exact Hxy|]. apply IH. exact Hrest.
Qed.

(** A missing value is replaced by the template value, whatever that is. *)
Lemma cleanField_undefined : forall def, cleanField VUndefined def = def.
Proof. intros [ | | b | n | s | items | props]; reflexivity. Qed.

Lemma conforms_cleanField : forall def,
  conforms def def = true -> forall val, conforms (cleanField val def) def = true.
Proof.
  induction def as [ | | b | n | s | items IH | props IH] using Value_deep_ind;
    intros Hself val.
  1-5: cbn [cleanField];
       match goal with
       | |- context [tag_eqb (typeof ?v) ?t] =>
           destruct (tag_eqb (typeof v) t) eqn:E; [exact E|reflexivity]
       end.
  - (* array template *)
    destruct items as [|exemplar rest].
    + destruct val as [ | | | | |[|item userArr]| ]; reflexivity.
    + destruct val as [ | | | | |[|item userArr]| ]; try exact Hself.
      cbn [cleanField]. cbn [conforms] in Hself |- *.
      destruct (isPlainObject exemplar) eqn:Hplain.
      * assert (conforms exemplar exemplar = true) as Hex.
        { cbn [forallb] in Hself. apply andb_prop in Hself. apply Hself. }
        apply forallb_forall. intros x Hx. apply in_map_iff in Hx.
        destruct Hx as (i & <- & _).
        destruct (isPlainObject i); [|exact Hex].
        apply IH; [left; reflexivity|exact Hex].
      * destruct (forallb _ (item :: userArr)) eqn:Hall.
        -- exact Hall.
        -- exact Hself.
  - (* object template *)
    destruct val as [ | | | | | |object]; try exact Hself.
    cbn [cleanField conforms]. cbn [conforms] in Hself.
    apply (forall2b_map_left _
             (fun entry tentry =>
                String.eqb (fst entry) (fst tentry) && conforms (snd entry) (snd tentry))
             (fun entry => (fst entry, cleanField (getProp (fst entry) object) (snd entry)))).
    intros [k d] Hin. cbn [fst snd]. rewrite String.eqb_refl. cbn [andb].
    apply (IH k d Hin).
    pose proof (forall2b_diagonal _ _ _ Hself (k, d) Hin) as Hd. cbn [fst snd] in Hd.
    apply andb_prop in Hd. apply Hd.
Qed.

(** X1 -- for a template none of whose objects has the key [__proto__], the
    result of the sanitizer always has the shape of the template, whatever
    the input, exactly when the template has that shape itself (its arrays
    are homogeneous): the template is one of the possible results. *)
Theorem cleanObject_result_has_template_shape : forall template,
  protoFree (VObject template) = true ->
  ((forall object,
       conforms (VObject (cleanObject object template)) (VObject template) = true)
   <-> conforms (VObject template) (VObject template) = true).
Proof.
  intros template _. split.
  - intros H. specialize (H []).
    replace (cleanObject [] template) with template in H; [exact H|].
    unfold cleanObject. symmetry. apply SanitizerFacts.map_id_on.
    intros [k d] _. cbn [fst snd getProp lookup]. rewrite cleanField_undefined. reflexivity.
  - intros Hself object. rewrite <- SanitizerFacts.cleanField_object.
    apply conforms_cleanField. exact Hself.
Qed.

Lemma cleanObject_result_has_template_shape_witness :
  conforms (VObject (cleanObject sampleInput recordTemplate)) (VObject recordTemplate) = true.
Proof.
  apply (proj2 (cleanObject_result_has_template_shape recordTemplate eq_refl)).
  reflexivity.
Defined.

Lemma keys_cleanObject : forall object template,
  keys (cleanObject object template) = keys template.
Proof.
  intros object template. unfold keys, cleanObject. rewrite map_map.
  apply map_ext. intros [k d]. reflexivity.
Qed.

Lemma lookup_in_keys : forall key (props : list (string * Value)),
  In key (keys props) -> exists v, lookup key props = Some v.
Proof.
  intros key props. unfold keys.
  induction props as [|[k d] rest IH]; cbn; [tauto|].
  intros [->|Hin].
  - rewrite String.eqb_refl. eexists. reflexivity.
  - destruct (String.eqb key k); [eexists; reflexivity|]. apply IH. exact Hin.
Qed.

(** X2 -- for a template without the key [__proto__], the result has exactly
    the keys of the template, in the order of the template, whatever the
    input: unknown keys are gone, missing ones are there. *)
Theorem cleanObject_keys : forall object template,
  noProtoKey template = true ->
  keys (cleanObject object template) = keys template /\
  (forall key, lookup key template = None ->
               lookup key (cleanObject object template) = None) /\
  (forall key, In key (keys template) ->
               exists v, lookup key (cleanObject object template) = Some v).
Proof.
  intros object template _. split; [apply keys_cleanObject|]. split.
  - intros key H. rewrite SanitizerFacts.lookup_cleanObject, H. reflexivity.
  - intros key H. apply lookup_in_keys. rewrite keys_cleanObject. exact H.
Qed.

Lemma cleanObject_keys_witness :
  lookup "stale" (cleanObject [("stale", VBool true)] recordTemplate) = None /\
  exists v, lookup "rows" (cleanObject [("stale", VBool true)] recordTemplate) = Some v.
Proof.
  split.
  - apply (proj1 (proj2 (cleanObject_keys [("stale", VBool true)] recordTemplate
                                          eq_refl))).
    reflexivity.
  - apply (proj2 (proj2 (cleanObject_keys [("stale", VBool true)] recordTemplate
                                          eq_refl))).
    right. left. reflexivity.
Defined.

Lemma cleanObject_missing : forall object template,
  (forall key, In key (keys template) -> lookup key object = None) ->
  cleanObject object template = template.
Proof.
  intros object template H. unfold cleanObject. apply SanitizerFacts.map_id_on.
  intros [k d] Hin. cbn [fst snd]. unfold getProp.
  rewrite (H k); [rewrite cleanField_undefined; reflexivity|].
  unfold keys. apply in_map_iff. exists (k, d). split; [reflexivity|exact Hin].
Qed.

(** X3 -- for a template without the key [__proto__], an input with none of
    the keys of the template is cleaned to the template itself: the empty
    object, the default value of the parameter, yields the defaults. *)
Theorem cleanObject_defaults : forall object template,
  noProtoKey template = true ->
  (forall key, In key (keys template) -> lookup key object = None) ->
  cleanObject object template = template /\ cleanObject [] template = template.
Proof.
  intros object template _ H. split; apply cleanObject_missing; [exact H|].
  intros key _. reflexivity.
Qed.

Lemma cleanObject_defaults_witness :
  cleanObject [("stale", VBool true)] recordTemplate = recordTemplate.
Proof.
  apply (cleanObject_defaults [("stale", VBool true)] recordTemplate eq_refl).
  intros key Hin. cbn in Hin.
  destruct Hin as [<-|[<-|[<-|[<-|[]]]]]; reflexivity.
Defined.

(** X4 -- the result depends on the input only through the values it holds
    under the keys of the template: two inputs that agree there are cleaned
    to the same object, whatever else they contain and in whatever order. *)
Theorem cleanObject_ignores_unknown_keys : forall object1 object2 template,
  (forall key, In key (keys template) -> getProp key object1 = getProp key object2) ->
  cleanObject object1 template = cleanObject object2 template.
Proof.
  intros object1 object2 template H. unfold cleanObject. apply map_ext_in.
  intros [k d] Hin. cbn [fst snd]. rewrite (H k); [reflexivity|].
  unfold keys. apply in_map_iff. exists (k, d). split; [reflexivity|exact Hin].
Qed.

Lemma cleanObject_ignores_unknown_keys_witness :
  cleanObject (("stale", VBool true) :: rev recordInput) recordTemplate
  = cleanObject recordInput recordTemplate.
Proof.
  apply (cleanObject_ignores_unknown_keys
           (("stale", VBool true) :: rev recordInput) recordInput recordTemplate).
  intros key Hin. cbn in Hin.
  destruct Hin as [<-|[<-|[<-|[<-|[]]]]]; reflexivity.
Defined.

Lemma valid_entries : forall props0 props template,
  distinct (keys props0) = true ->
  (forall entry, In entry props -> In entry props0) ->
  Forall2 (fun entry tentry =>
             fst entry = fst tentry /\
             cleanField (snd entry) (snd tentry) = snd entry) props template ->
  map (fun tentry => (fst tentry, cleanField (getProp (fst tentry) props0) (snd tentry)))
      template
  = props.
Proof.
  intros props0 props template Hd Hsub H.
  induction H as [|[k x] [k' d] props template [Hk Hx] Hrest IH]; [reflexivity|].
  cbn [fst snd] in Hk, Hx. subst k'. cbn [map fst snd].
  unfold getProp at 1.
  rewrite (SanitizerFacts.lookup_distinct props0 k x Hd (Hsub _ (or_introl eq_refl))).
  rewrite Hx. f_equal. apply IH. intros entry Hin. apply Hsub. right. exact Hin.
Qed.

Lemma valid_kept : forall def v, valid v def = true -> cleanField v def = v.
Proof.
  induction def as [ | | b | n | s | items IH | props IH] using Value_deep_ind;
    intros v Hv.
  1-5: cbn [cleanField]; cbn [valid] in Hv; rewrite Hv; reflexivity.
  - (* array template *)
    destruct items as [|exemplar rest].
    + destruct v as [ | | | | |[|item userArr]| ]; try discriminate. reflexivity.
    + destruct v as [ | | | | |[|item userArr]| ]; try discriminate.
      cbn [cleanField]. cbn [valid] in Hv.
      destruct (isPlainObject exemplar) eqn:Hplain.
      * f_equal. apply SanitizerFacts.map_id_on. intros i Hi.
        rewrite forallb_forall in Hv. specialize (Hv i Hi).
        assert (isPlainObject i = true) as Hobj.
        { destruct exemplar; try discriminate. destruct i; try discriminate. reflexivity. }
        rewrite Hobj. apply IH; [left; reflexivity|exact Hv].
      * unfold sameType in Hv. rewrite Hv. reflexivity.
  - (* object template *)
    destruct v as [ | | | | | |object]; try discriminate.
    cbn [valid] in Hv. apply andb_prop in Hv. destruct Hv as [Hd Hall].
    cbn [cleanField]. f_equal.
    apply valid_entries; [exact Hd|auto|].
    apply forall2b_Forall2 in Hall.
    clear Hd. induction Hall as [|[k x] [k' d] ps ts Hhead Hrest IHall]; [constructor|].
    cbn [fst snd] in Hhead. apply andb_prop in Hhead. destruct Hhead as [Hk Hx].
    apply String.eqb_eq in Hk. constructor.
    + split; [exact Hk|]. cbn [fst snd]. apply (IH k' d); [left; reflexivity|exact Hx].
    + apply IHall. intros k0 v0 Hin. apply (IH k0 v0). right. exact Hin.
Qed.

(** X5 -- for a template none of whose objects has the key [__proto__],
    valid data passes through unchanged: a stored object that conforms to
    the template, with non-empty arrays wherever the template array has an
    exemplar, is returned as it is. *)
Theorem cleanObject_keeps_valid_data : forall object template,
  protoFree (VObject template) = true ->
  valid (VObject object) (VObject template) = true ->
  cleanObject object template = object.
Proof.
  intros object template _ H.
  pose proof (valid_kept (VObject template) (VObject object) H) as E.
  rewrite SanitizerFacts.cleanField_object in E. injection E as E. exact E.
Qed.

Lemma cleanObject_keeps_valid_data_witness :
  cleanObject recordInput recordTemplate = recordInput.
Proof.
  apply (cleanObject_keeps_valid_data recordInput recordTemplate eq_refl). reflexivity.
Defined.

(** X6 -- under a key whose template array has a plain object as exemplar, a
    non-empty stored array keeps its length: each element that is a plain
    object is cleaned against the exemplar, each other element is replaced
    by the exemplar; no element is dropped. *)
Theorem cleanObject_cleans_record_arrays :
  forall object template key tmpl rest item items,
    lookup key template = Some (VArray (VObject tmpl :: rest)) ->
    getProp key object = VArray (item :: items) ->
    let cleanItem := fun x => match x with
                              | VObject o => VObject (cleanObject o tmpl)
                              | _ => VObject tmpl
                              end in
    lookup key (cleanObject object template)
    = Some (VArray (map cleanItem (item :: items))) /\
    List.length (map cleanItem (item :: items)) = List.length (item :: items) /\
    (forall x, In x (item :: items) -> isPlainObject x = false ->
               In (VObject tmpl) (map cleanItem (item :: items))).
Proof.
  intros object template key tmpl rest item items Hkey Hval cleanItem.
  split; [|split].
  - rewrite SanitizerFacts.lookup_cleanObject, Hkey, Hval. cbn [option_map].
    rewrite SanitizerFacts.cleanField_array. reflexivity.
  - apply length_map.
  - intros x Hin Hx. apply in_map_iff. exists x. split; [|exact Hin].
    destruct x; try reflexivity. discriminate.
Qed.

Lemma cleanObject_cleans_record_arrays_witness :
  lookup "rows"
    (cleanObject [("rows", VArray [VObject [("id", VString "7"); ("extra", VNull)];
                                   VNumber 3%float])]
                 recordTemplate)
  = Some (VArray [VObject [("id", VNumber 0%float); ("on", VBool false)];
                  VObject [("id", VNumber 0%float); ("on", VBool false)]]).
Proof.
  exact (proj1 (cleanObject_cleans_record_arrays
                  [("rows", VArray [VObject [("id", VString "7"); ("extra", VNull)];
                                    VNumber 3%float])]
                  recordTemplate "rows"
                  [("id", VNumber 0%float); ("on", VBool false)] []
                  (VObject [("id", VString "7"); ("extra", VNull)]) [VNumber 3%float]
                  eq_refl eq_refl)).
Defined.

Lemma cleanField_array_nonempty : forall val exemplar rest,
  exists item items, cleanField val (VArray (exemplar :: rest)) = VArray (item :: items).
Proof.
  intros val exemplar rest.
  destruct val as [ | | | | |[|item userArr]| ]; try (eexists; eexists; reflexivity).
  cbn [cleanField]. destruct (isPlainObject exemplar).
  - cbn [map]. eexists; eexists; reflexivity.
  - destruct (forallb _ (item :: userArr)); eexists; eexists; reflexivity.
Qed.

(** X7 -- a list can not be emptied: under a key whose template array has an
    exemplar the result is never the empty array.  An empty stored array is
    replaced by the template array, exemplar included. *)
Theorem cleanObject_never_yields_empty_array :
  forall object template key exemplar rest,
    lookup key template = Some (VArray (exemplar :: rest)) ->
    (exists item items,
        lookup key (cleanObject object template) = Some (VArray (item :: items))) /\
    (getProp key object = VArray [] ->
     lookup key (cleanObject object template) = Some (VArray (exemplar :: rest))).
Proof.
  intros object template key exemplar rest Hkey.
  rewrite SanitizerFacts.lookup_cleanObject, Hkey. cbn [option_map]. split.
  - destruct (cleanField_array_nonempty (getProp key object) exemplar rest)
      as (item & items & E).
    exists item, items. rewrite E. reflexivity.
  - intros ->. reflexivity.
Qed.

Lemma cleanObject_never_yields_empty_array_witness :
  lookup "sizes" (cleanObject [("sizes", VArray [])] recordTemplate)
  = Some (VArray [VNumber 0%float]).
Proof.
  exact (proj2 (cleanObject_never_yields_empty_array
                  [("sizes", VArray [])] recordTemplate "sizes" (VNumber 0%float) []
                  eq_refl) eq_refl).
Defined.

End SanitizerLaws.

(** ** The debounce controller: timers, executions and calls *)

Module DebounceLaws.
Import Debounce DebounceFacts.

Section Laws.
Context {A W : Type}.
Variable fn : Z -> A -> W -> W.
Variable opts : Options.

Lemma run_snoc : forall script act (s : @State A W),
  run fn opts (script ++ [act]) s = step fn opts (run fn opts script s) act.
Proof. intros. rewrite run_app. reflexivity. Qed.

Lemma callsOf_snoc : forall (script : list (@Action A)) act,
  callsOf (script ++ [act])
  = callsOf script ++ match act with Call args => [args] | Sleep _ => [] end.
Proof.
  intros script act. unfold callsOf. rewrite flat_map_app. cbn [flat_map].
  rewrite app_nil_r. reflexivity.
Qed.

Lemma reachable_wellShaped : forall history t0 w,
  wellShaped (run fn opts history (@initial A W t0 w)).
Proof. intros. apply run_wellShaped. apply initial_wellShaped. Qed.

(** *** Timers *)

(** X8 -- at any point of the life of a debounced function at most two host
    timers are pending, one per handle: the handle [timeout] names a pending
    trailing timer and [maxTimeout] a pending max-wait timer, every pending
    timer is named by its handle, and no timer the function has replaced or
    cancelled stays in the queue. *)
Theorem timers_never_pile_up : forall history t0 w,
  let s := run fn opts history (@initial A W t0 w) in
  (List.length (timers s) <= 2)%nat /\
  NoDup (map tid (timers s)) /\
  (forall t, In t (timers s) ->
     (cb t = TrailingCb /\ timeout s = Some (tid t)) \/
     (cb t = MaxWaitCb /\ maxTimeout s = Some (tid t))) /\
  (forall i, timeout s = Some i -> exists d, In (mkTimer i d TrailingCb) (timers s)) /\
  (forall j, maxTimeout s = Some j -> exists e, In (mkTimer j e MaxWaitCb) (timers s)).
Proof.
  intros history t0 w s.
  pose proof (reachable_wellShaped history t0 w) as H. fold s in H.
  destruct s as [to mto lit fct pa cl ts nid w' ex].
  unfold wellShaped in H. cbn [timers timeout maxTimeout nextId] in *.
  inversion H; subst; clear H; cbn [List.length map tid].
  - split; [lia|]. split; [constructor|]. split; [intros ? []|].
    split; discriminate.
  - split; [lia|]. split; [repeat constructor; intros []|]. split; [|split].
    + intros t [<-|[]]. left. split; reflexivity.
    + intros i0 E. injection E as <-. eexists. left. reflexivity.
    + discriminate.
  - split; [lia|]. split; [repeat constructor; intros []|]. split; [|split].
    + intros t [<-|[]]. right. split; reflexivity.
    + discriminate.
    + intros j0 E. injection E as <-. eexists. left. reflexivity.
  - split; [lia|]. split; [|split; [|split]].
    + repeat constructor; cbn; [intros [E|[]]; lia|intros []].
    + intros t [<-|[<-|[]]]; [left|right]; split; reflexivity.
    + intros i0 E. injection E as <-. eexists. left. reflexivity.
    + intros j0 E. injection E as <-. eexists. right. left. reflexivity.
  - split; [lia|]. split; [|split; [|split]].
    + repeat constructor; cbn; [intros [E|[]]; lia|intros []].
    + intros t [<-|[<-|[]]]; [right|left]; split; reflexivity.
    + intros i0 E. injection E as <-. eexists. right. left. reflexivity.
    + intros j0 E. injection E as <-. eexists. left. reflexivity.
Qed.

(** *** Executions and calls *)

Lemma debounced_outcome : forall a (s : @State A W),
  let s' := debounced fn opts a s in
  (executions s' = executions s /\ pendingArgs s' = Some a) \/
  (executions s' = executions s ++ [(clock s, a)] /\ pendingArgs s' = None).
Proof.
  intros a s. destruct s as [to mto lit fct pa cl ts nid w ex].
  rewrite debounced_eq. cbv zeta.
  destruct (immediate opts && Z.eqb lit 0)%bool, mto, (maxWait opts); cbn; auto.
Qed.

Lemma fire_outcome : forall t (s : @State A W),
  let s' := fire fn opts t s in
  (executions s' = executions s /\
   (pendingArgs s' = pendingArgs s \/ pendingArgs s' = None)) \/
  (exists a, pendingArgs s = Some a /\
             executions s' = executions s ++ [(Z.max (clock s) (due t), a)] /\
             pendingArgs s' = None).
Proof.
  intros [i at_ [|]] s; destruct s as [to mto lit fct pa cl ts nid w ex].
  - rewrite fire_trailing_eq. cbv zeta.
    destruct (immediate opts), pa; cbn; eauto 8.
  - rewrite fire_maxWait_eq. cbv zeta. destruct pa; cbn; eauto 8.
Qed.

Lemma sleep_outcome : forall d (s : @State A W),
  wellShaped s ->
  let s' := sleep fn opts d s in
  (executions s' = executions s /\
   (pendingArgs s' = pendingArgs s \/ pendingArgs s' = None)) \/
  (exists a at_, pendingArgs s = Some a /\
                 executions s' = executions s ++ [(at_, a)] /\
                 pendingArgs s' = None).
Proof.
  intros d s Hs. unfold sleep.
  destruct (advanceTo_cases fn opts (clock s + d) s Hs) as [[E _]|(t & _ & E)];
    rewrite E; cbn [executions pendingArgs set_clock].
  - left. auto.
  - destruct (fire_outcome t s) as [H|(a & H1 & H2 & H3)]; [left; exact H|].
    right. eauto 8.
Qed.

(** X9 -- the wrapped function never runs more often than the debounced
    function was called, it only ever runs on arguments that were passed to
    a call, and the arguments that wait for a timer are those of the latest
    call. *)
Theorem executions_come_from_calls : forall script t0 w,
  let s := run fn opts script (@initial A W t0 w) in
  (List.length (executions s) <= List.length (callsOf script))%nat /\
  (forall e, In e (executions s) -> In (snd e) (callsOf script)) /\
  (forall a, pendingArgs s = Some a -> exists before, callsOf script = before ++ [a]).
Proof.
  intros script t0 w.
  assert (let s := run fn opts script (@initial A W t0 w) in
          (List.length (executions s)
           + match pendingArgs s with Some _ => 1 | None => 0 end
           <= List.length (callsOf script))%nat /\
          (forall e, In e (executions s) -> In (snd e) (callsOf script)) /\
          (forall a, pendingArgs s = Some a ->
                     exists before, callsOf script = before ++ [a])) as H.
  { induction script as [|act script IH] using rev_ind.
    - cbn. repeat split; [lia|intros ? []|discriminate].
    - rewrite run_snoc, callsOf_snoc.
      pose proof (reachable_wellShaped script t0 w) as Hs.
      set (s := run fn opts script (initial t0 w)) in *.
      cbv zeta in IH. destruct IH as (Hcount & Hin & Hlast).
      destruct act as [args|d]; cbn [step].
      + rewrite length_app. cbn [List.length].
        destruct (debounced_outcome args s) as [[E P]|[E P]]; rewrite E, P.
        * split; [destruct (pendingArgs s); lia|]. split.
          -- intros e He. apply in_or_app. left. apply Hin. exact He.
          -- intros a Ha. injection Ha as <-. eexists. reflexivity.
        * rewrite length_app. cbn [List.length].
          split; [destruct (pendingArgs s); lia|]. split; [|discriminate].
          intros e He. apply in_app_or in He. apply in_or_app.
          destruct He as [He|[<-|[]]]; [left; apply Hin; exact He|].
          right. left. reflexivity.
      + rewrite app_nil_r.
        destruct (sleep_outcome d s Hs) as [[E P]|(a & at_ & Hpa & E & P)]; rewrite E.
        * split; [|split; [exact Hin|]].
          -- destruct P as [P|P]; rewrite P; [exact Hcount|].
             destruct (pendingArgs s); lia.
          -- destruct P as [P|P]; rewrite P; [exact Hlast|discriminate].
        * rewrite P, length_app. cbn [List.length]. rewrite Hpa in Hcount.
          split; [lia|]. split; [|discriminate].
          intros e He. apply in_app_or in He.
          destruct He as [He|[<-|[]]]; [apply Hin; exact He|].
          cbn [snd]. destruct (Hlast a Hpa) as (before & ->).
          apply in_or_app. right. left. reflexivity. }
  cbv zeta in H |- *. destruct H as (H1 & H2 & H3).
  split; [lia|]. split; assumption.
Qed.

(** *** Nothing is lost on the trailing edge *)

Lemma fire_executes : forall t a (s : @State A W),
  immediate opts = false -> pendingArgs s = Some a ->
  let s' := fire fn opts t s in
  executions s' = executions s ++ [(Z.max (clock s) (due t), a)] /\
  world s' = fn (Z.max (clock s) (due t)) a (world s) /\
  clock s' = Z.max (clock s) (due t).
Proof.
  intros [i at_ [|]] a s Him; destruct s as [to mto lit fct pa cl ts nid w ex];
    cbn [pendingArgs]; intros ->.
  - rewrite fire_trailing_eq, Him. cbn. auto.
  - rewrite fire_maxWait_eq. cbn. auto.
Qed.

Lemma sleep_flushes : forall a d t (s : @State A W),
  immediate opts = false -> wellShaped s -> timely s -> pendingArgs s = Some a ->
  In t (timers s) -> due t <= clock s + d ->
  let final := sleep fn opts d s in
  exists at_,
    clock s <= at_ <= due t /\
    executions final = executions s ++ [(at_, a)] /\
    world final = fn at_ a (world s) /\
    idle final /\ clock final = clock s + d.
Proof.
  intros a d t s Him Hs Ht Hpa Hin Hdue final. subst final. unfold sleep.
  destruct (earliest (timers s)) as [t1|] eqn:E.
  2: { apply earliest_None in E. rewrite E in Hin. contradiction. }
  pose proof (earliest_In _ _ E) as Hin1.
  pose proof (earliest_min _ _ E t Hin) as Hmin.
  pose proof (Ht t1 Hin1) as Hlate.
  rewrite (advanceTo_fires fn opts (clock s + d) t1 s Hs E) by lia.
  destruct (fire_executes t1 a s Him Hpa) as (Hex & Hw & Hc).
  pose proof (fire_idles fn opts t1 a s Him Hs Hin1 Hpa) as Hidle.
  rewrite Z.max_r in Hex, Hw, Hc by assumption.
  exists (due t1). split; [lia|].
  cbn [executions world clock set_clock]. rewrite Hex, Hw, Hc.
  split; [reflexivity|]. split; [reflexivity|]. split; [exact Hidle|lia].
Qed.

Lemma call_arms_trailing : forall a (s : @State A W),
  immediate opts = false ->
  let s' := debounced fn opts a s in
  In (mkTimer (nextId s) (clock s + Z.max 0 (delay opts)) TrailingCb) (timers s') /\
  pendingArgs s' = Some a /\ executions s' = executions s /\
  world s' = world s /\ clock s' = clock s.
Proof.
  intros a s Him. destruct s as [to mto lit fct pa cl ts nid w ex].
  rewrite call_literal by assumption. cbv zeta.
  destruct mto, (maxWait opts); cbn [timers pendingArgs executions world clock nextId];
    repeat split;
    repeat (apply in_or_app; (right; left; reflexivity) || left);
    apply in_or_app; right; left; reflexivity.
Qed.

(** X10 -- with [immediate = false] no call is lost, with or without
    [maxWait]: whatever happened before, once [delay] ms have passed after a
    call (a negative [delay] counts as 0) the wrapped function has run on
    the arguments of that call, exactly once since the call and no later
    than [delay] ms after it, and nothing is pending any more. *)
Theorem no_call_is_lost : forall history t0 w a d,
  immediate opts = false -> Z.max 0 (delay opts) <= d ->
  let s := run fn opts history (@initial A W t0 w) in
  let final := sleep fn opts d (debounced fn opts a s) in
  exists at_,
    clock s <= at_ <= clock s + Z.max 0 (delay opts) /\
    executions final = executions s ++ [(at_, a)] /\
    world final = fn at_ a (world s) /\
    idle final.
Proof.
  intros history t0 w a d Him Hd s final.
  destruct (initial_invariants (A := A) t0 w) as (I1 & I2 & I3 & I4).
  destruct (run_trailing_invariants fn opts history _ Him I1 I2 I3 I4)
    as (Hs & Ht & _ & _).
  fold s in Hs, Ht.
  destruct (call_arms_trailing a s Him) as (Harmed & Hpa & Hex & Hw & Hc).
  destruct (sleep_flushes a d _ (debounced fn opts a s) Him
              (debounced_wellShaped fn opts a s Hs) (debounced_timely fn opts a s Ht)
              Hpa Harmed)
    as (at_ & Hat & Hex' & Hw' & Hidle & _).
  { cbn [due]. rewrite Hc. lia. }
  exists at_. fold final in Hex', Hw', Hidle.
  cbn [due] in Hat. rewrite Hc in Hat. rewrite Hex', Hw', Hex, Hw. auto.
Qed.

Lemma sleep_timely : forall d (s : @State A W),
  wellShaped s -> timely s -> timely (sleep fn opts d s).
Proof.
  intros d s Hs Ht. unfold sleep, timely.
  destruct (advanceTo_cases fn opts (clock s + d) s Hs) as [[E Hall]|(t & Hin & E)];
    rewrite E; cbn [timers clock set_clock].
  - intros t Hin. specialize (Ht t Hin). specialize (Hall t Hin). lia.
  - destruct (fire_clears fn opts t s Hs Hin) as [Hnil _]. rewrite Hnil. intros ? [].
Qed.

(** *** The max-wait ceiling *)

Lemma executions_grow : forall act (s : @State A W),
  wellShaped s ->
  exists extra, executions (step fn opts s act) = executions s ++ extra.
Proof.
  intros [args|d] s Hs; cbn [step].
  - destruct (debounced_outcome args s) as [[E _]|[E _]]; rewrite E.
    + exists []. rewrite app_nil_r. reflexivity.
    + eexists. reflexivity.
  - destruct (sleep_outcome d s Hs) as [[E _]|(a & at_ & _ & E & _)]; rewrite E.
    + exists []. rewrite app_nil_r. reflexivity.
    + eexists. reflexivity.
Qed.

Lemma first_call_arms_maxWait : forall mw a (s : @State A W),
  immediate opts = false -> maxWait opts = Some mw -> idle s ->
  let s' := debounced fn opts a s in
  exists j, maxTimeout s' = Some j /\
            In (mkTimer j (clock s + Z.max 0 mw) MaxWaitCb) (timers s').
Proof.
  intros mw a s Him Hmw. destruct s as [to mto lit fct pa cl ts nid w ex].
  intros (Hts & Hto & Hmto & Hpa & Hfct). cbn in Hts, Hto, Hmto, Hpa, Hfct. subst.
  rewrite call_literal by assumption. rewrite Hmw. cbv zeta.
  cbn [Z.eqb maxTimeout timers clock app].
  replace (mw - (cl - cl)) with mw by lia.
  eexists. split; [reflexivity|]. right. left. reflexivity.
Qed.

(** X11 -- with [immediate = false] and a [maxWait], a burst can not
    postpone the execution for ever: whatever is called and however the
    calls are spaced after the first call of a burst, as soon as more than
    [maxWait] ms have passed since that first call the wrapped function has
    run, and it ran no later than [maxWait] ms after the first call. *)
Theorem maxWait_bounds_every_burst : forall history t0 w a script mw,
  immediate opts = false -> maxWait opts = Some mw ->
  let s := run fn opts history (@initial A W t0 w) in
  timers s = [] ->
  let s' := run fn opts (Call a :: script) s in
  clock s + Z.max 0 mw < clock s' ->
  exists at_ x more,
    executions s' = executions s ++ (at_, x) :: more /\
    clock s <= at_ <= clock s + Z.max 0 mw.
Proof.
  intros history t0 w a script mw Him Hmw s Hquiet s' Hlate.
  destruct (initial_invariants (A := A) t0 w) as (I1 & I2 & I3 & I4).
  assert (forall script',
             let s2 := run fn opts (Call a :: script') s in
             wellShaped s2 /\ timely s2) as Hreach.
  { intros script' s2.
    assert (s2 = run fn opts (history ++ Call a :: script') (initial t0 w)) as ->
      by (subst s2 s; rewrite run_app; reflexivity).
    destruct (run_trailing_invariants fn opts (history ++ Call a :: script') _
                Him I1 I2 I3 I4) as (H1 & H2 & _). auto. }
  assert (idle s) as Hidle.
  { destruct (run_trailing_invariants fn opts history _ Him I1 I2 I3 I4)
      as (_ & _ & _ & Hq).
    apply Hq. exact Hquiet. }
  set (D := clock s + Z.max 0 mw) in *.
  assert (let s2 := run fn opts (Call a :: script) s in
          (executions s2 = executions s /\ clock s <= clock s2 /\
           (exists j, maxTimeout s2 = Some j /\ In (mkTimer j D MaxWaitCb) (timers s2)) /\
           (exists x, pendingArgs s2 = Some x))
          \/
          (exists at_ x more,
              executions s2 = executions s ++ (at_, x) :: more /\
              clock s <= at_ <= D)) as H.
  { clear Hlate s'. induction script as [|act script IH] using rev_ind.
    - left. change (run fn opts [Call a] s) with (debounced fn opts a s).
      destruct (call_arms_trailing a s Him) as (_ & Hpa & Hex & _ & Hc).
      split; [exact Hex|]. split; [lia|].
      split; [apply first_call_arms_maxWait; assumption|].
      eexists. exact Hpa.
    - destruct (Hreach script) as (Hs2 & Ht2).
      change (Call a :: script ++ [act]) with ((Call a :: script) ++ [act]).
      rewrite run_snoc.
      set (s2 := run fn opts (Call a :: script) s) in *.
      cbv zeta in IH.
      destruct IH as [(Hex & Hmono & (j & Hj & Hin) & (x & Hpa))
                     |(at_ & x & more & Hex & Hat)].
      + destruct act as [args|d]; cbn [step].
        * left.
          destruct (call_arms_trailing args s2 Him) as (_ & Hpa' & Hex' & _ & Hc').
          destruct (maxWait_not_rearmed fn opts j args s2 Hs2 Hj) as (Hj' & Hfilter).
          split; [congruence|]. split; [lia|]. split; [|eexists; exact Hpa'].
          exists j. split; [exact Hj'|].
          assert (In (mkTimer j D MaxWaitCb) (filter isMaxWait (timers s2))) as Hf
            by (apply filter_In; split; [exact Hin|reflexivity]).
          rewrite <- Hfilter in Hf. apply filter_In in Hf. apply Hf.
        * unfold sleep.
          destruct (earliest (timers s2)) as [t1|] eqn:E.
          2: { apply earliest_None in E. rewrite E in Hin. contradiction. }
          pose proof (earliest_In _ _ E) as Hin1.
          pose proof (earliest_min _ _ E _ Hin) as Hmin. cbn [due] in Hmin.
          pose proof (Ht2 t1 Hin1) as Hlate1.
          destruct (Z.leb_spec (due t1) (clock s2 + d)) as [Hdue|Hwait].
          -- right.
             rewrite (advanceTo_fires fn opts (clock s2 + d) t1 s2 Hs2 E Hdue).
             destruct (fire_executes t1 x s2 Him Hpa) as (Hex1 & _).
             rewrite Z.max_r in Hex1 by assumption.
             exists (due t1), x, []. cbn [executions set_clock].
             rewrite Hex1, Hex. split; [reflexivity|lia].
          -- left. rewrite advanceTo_none_due.
             ++ cbn [executions clock maxTimeout timers pendingArgs set_clock].
                split; [exact Hex|]. split; [lia|]. eauto.
             ++ intros t Ht. pose proof (earliest_min _ _ E t Ht). lia.
      + right. destruct (executions_grow act s2 Hs2) as (extra & Hgrow).
        exists at_, x, (more ++ extra). rewrite Hgrow, Hex, <- app_assoc.
        split; [reflexivity|exact Hat]. }
  cbv zeta in H. fold s' in H.
  destruct H as [(_ & _ & (j & _ & Hin) & _)|H]; [|exact H].
  destruct (Hreach script) as (_ & Ht'). fold s' in Ht'.
  specialize (Ht' _ Hin). cbn [due] in Ht'. lia.
Qed.

End Laws.

Lemma timers_never_pile_up_witness :
  let s := run noEffect (mkOptions false 500 (Some 1000))
               [Call 1%nat; Sleep 300; Call 2%nat; Sleep 300; Call 3%nat]
               (initial 1000000 tt) in
  (List.length (timers s) <= 2)%nat /\
  exists d, In (mkTimer 4 d TrailingCb) (timers s).
Proof.
  intros s.
  destruct (timers_never_pile_up noEffect (mkOptions false 500 (Some 1000))
              [Call 1%nat; Sleep 300; Call 2%nat; Sleep 300; Call 3%nat] 1000000 tt)
    as (Hlen & _ & _ & Hto & _).
  split; [exact Hlen|]. apply Hto. reflexivity.
Defined.

Lemma executions_come_from_calls_witness :
  let script := [Call 1%nat; Sleep 50; Call 2%nat; Sleep 50; Call 3%nat] in
  let s := run noEffect (mkOptions true 100 (Some 300)) script (initial 1000000 tt) in
  (List.length (executions s) <= 3)%nat /\
  exists before, callsOf script = before ++ [3%nat].
Proof.
  intros script s.
  destruct (executions_come_from_calls noEffect (mkOptions true 100 (Some 300))
              script 1000000 tt)
    as (Hcount & _ & Hlast).
  split; [exact Hcount|]. apply Hlast. reflexivity.
Defined.

Lemma maxWait_bounds_every_burst_witness :
  let o := mkOptions false 500 (Some 1000) in
  let s' := run noEffect o
                [Call 1%nat; Sleep 400; Call 2%nat; Sleep 400; Call 3%nat; Sleep 400;
                 Call 4%nat]
                (initial 1000000 tt) in
  exists at_ x more,
    executions s' = (at_, x) :: more /\ 1000000 <= at_ <= 1001000.
Proof.
  intros o s'.
  apply (maxWait_bounds_every_burst noEffect o [] 1000000 tt 1%nat
           [Sleep 400; Call 2%nat; Sleep 400; Call 3%nat; Sleep 400; Call 4%nat] 1000
           eq_refl eq_refl eq_refl).
  vm_compute. reflexivity.
Defined.

Lemma no_call_is_lost_witness :
  let o := mkOptions false 500 (Some 1000) in
  let s := run noEffect o [Call 1%nat; Sleep 300; Call 2%nat; Sleep 300] (initial 1000000 tt) in
  exists at_,
    1000600 <= at_ <= 1001100 /\
    executions (sleep noEffect o 700 (debounced noEffect o 3%nat s)) = [(at_, 3%nat)].
Proof.
  intros o s.
  destruct (no_call_is_lost noEffect o [Call 1%nat; Sleep 300; Call 2%nat; Sleep 300]
              1000000 tt 3%nat 700 eq_refl)
    as (at_ & Hat & Hex & _).
  - cbn. lia.
  - exists at_. split; [exact Hat|exact Hex].
Defined.

End DebounceLaws.

(** ** The state manager: what [load()] assigns *)

Module ManagerLaws.
Import JS Manager.









End ManagerLaws.

(** ** The storage binding: loading, cleaning up and saving *)

Module BindingLaws.
Import JS Manager Binding.

Section Laws.
Variable defaultStorageObject : list (string * Value).
Variable variant : Variant.

(** *** [saveState] *)

Lemma saveState_outcome : forall data v,
  let v' := snd (saveState data v) in
  fst (saveState data v) = Resolves tt /\
  writes (backend v') = writes (backend v) ++ [data] /\
  console v'
  = console v ++ [match fault (backend v) with
                  | None => ConsoleLog "Storage saved"
                  | Some err => ConsoleError "Failed to save to storage:" err
                  end] /\
  unhandledRejections v' = unhandledRejections v.
Proof.
  intros data v. unfold saveState, storage_set, snapshot.
  destruct (fault (backend v)); cbn; auto.
Qed.

Lemma saveClosure_saveState : forall vr t w,
  saveClosure vr (Some saveState) t tt w
  = mkWorld (state w) (snd (saveState (state w) (env w))).
Proof.
  intros vr t w. unfold saveClosure, structuredClone, snapshot.
  pose proof (saveState_outcome (state w) (env w)) as (H & _).
  destruct (saveState (state w) (env w)) as [outcome v]. cbn [fst snd] in *.
  rewrite H. reflexivity.
Qed.

(** X14 -- [saveState] swallows every failure of the storage area: it always
    makes one [set] call with the state it is given, logs the success or the
    error, and resolves.  The manager's wrapper around it therefore never
    sees an error: nothing is logged by the manager, in either variant, and
    no rejection is left unhandled. *)
Theorem saveState_never_rejects : forall data v vr t w,
  let v' := snd (saveState data v) in
  let w' := saveClosure vr (Some saveState) t tt w in
  fst (saveState data v) = Resolves tt /\
  writes (backend v') = writes (backend v) ++ [data] /\
  console v'
  = console v ++ [match fault (backend v) with
                  | None => ConsoleLog "Storage saved"
                  | Some err => ConsoleError "Failed to save to storage:" err
                  end] /\
  unhandledRejections v' = unhandledRejections v /\
  state w' = state w /\
  env w' = snd (saveState (state w) (env w)) /\
  unhandledRejections (env w') = unhandledRejections (env w).
Proof.
  intros data v vr t w v' w'.
  destruct (saveState_outcome data v) as (H1 & H2 & H3 & H4).
  destruct (saveState_outcome (state w) (env w)) as (_ & _ & _ & H5).
  subst w'. rewrite saveClosure_saveState. cbn [state env]. auto 10.
Qed.

(** *** The initial load *)

(** X15 -- when the storage area can not be read, the error is logged by
    [loadState], by [load()] in the first variant of the class, and once
    more by the loader; [state] stays empty, the guard [storageLoaded] stays
    down and the storage area is not written. *)
Theorem failed_initial_load_is_logged : forall t0 v0 err,
  fault (backend v0) = Some err ->
  let b := play defaultStorageObject [LoadSettles; LoaderResumes]
                (init defaultStorageObject variant t0 v0) in
  storageLoaded b = false /\
  phase b = LoaderDone /\
  state (worldOf (stateManager b)) = [] /\
  persisted b = writes (backend v0) /\
  console (env (worldOf (stateManager b)))
  = console v0
    ++ [ConsoleError "Failed to load from storage:" err]
    ++ match variant with
       | V1 => [ConsoleError "StateManager: Failed to load state from storage:" err]
       | V2 => []
       end
    ++ [ConsoleError "Failed to load from storage:" err].
Proof.
  intros t0 [con [st wr f] unh] err Hf. cbn in Hf. subst f.
  destruct variant; cbn; rewrite <- ?app_assoc; repeat split.
Qed.

Lemma failed_load_leaves_guard_down : forall t0 v0 err,
  fault (backend v0) = Some err ->
  let b := play defaultStorageObject [LoadSettles; LoaderResumes]
                (init defaultStorageObject variant t0 v0) in
  storageLoaded b = false /\ phase b = LoaderDone.
Proof.
  intros t0 [con [st wr f] unh] err Hf. cbn in Hf. subst f.
  destruct variant; cbn; split; reflexivity.
Qed.

Lemma done_stays_done : forall b e,
  phase b = LoaderDone ->
  phase (handle defaultStorageObject b e) = LoaderDone /\
  storageLoaded (handle defaultStorageObject b e) = storageLoaded b.
Proof.
  intros [loaded registered m ph calls] e Hph. cbn in Hph. subst ph.
  destruct e; cbn; auto.
  - destruct registered; cbn; auto.
  - destruct registered; cbn; auto. destruct loaded; cbn; auto.
Qed.

Lemma done_forever : forall events b,
  phase b = LoaderDone ->
  phase (play defaultStorageObject events b) = LoaderDone /\
  storageLoaded (play defaultStorageObject events b) = storageLoaded b.
Proof.
  intros events. induction events as [|e events IH] using rev_ind; intros b Hph.
  - split; [exact Hph|reflexivity].
  - rewrite BindingFacts.play_snoc. destruct (IH b Hph) as [H1 H2].
    destruct (done_stays_done (play defaultStorageObject events b) e H1) as [H3 H4].
    split; [exact H3|]. rewrite H4. exact H2.
Qed.

(** X16 -- a failed initial load switches auto-saving off for good: whatever
    happens afterwards, the guard never rises, [save()] is never called and
    the storage area is never written. *)
Theorem failed_load_disables_saving : forall t0 v0 err events,
  fault (backend v0) = Some err ->
  let b := play defaultStorageObject ([LoadSettles; LoaderResumes] ++ events)
                (init defaultStorageObject variant t0 v0) in
  storageLoaded b = false /\
  saveCalls b = 0%nat /\
  persisted b = writes (backend v0) /\
  Debounce.executions (ctl (stateManager b)) = [].
Proof.
  intros t0 v0 err events Hf b.
  destruct (failed_load_leaves_guard_down t0 v0 err Hf) as (Hl & Hph).
  assert (storageLoaded b = false) as Hdown.
  { subst b. unfold play. rewrite fold_left_app.
    destruct (done_forever events _ Hph) as [_ H]. unfold play in H.
    rewrite H. exact Hl. }
  split; [exact Hdown|].
  destruct (BindingFacts.play_guarded defaultStorageObject v0
              ([LoadSettles; LoaderResumes] ++ events)
              (init defaultStorageObject variant t0 v0)
              (BindingFacts.init_guarded defaultStorageObject variant t0 v0))
    as (_ & Huntouched & _).
  destruct (Huntouched Hdown) as (H1 & H2 & H3 & _). auto.
Qed.





(** *** What every state of the module has in common *)

Lemma set_world_shape : forall w (c : @Debounce.State unit World),
  (Debounce.wellShaped c -> Debounce.wellShaped (set_world w c)) /\
  (Debounce.timely c -> Debounce.timely (set_world w c)).
Proof. intros w c. split; intros H; exact H. Qed.

Lemma handle_manager : forall b e c,
  stateManager b = managerWith defaultStorageObject variant c ->
  Debounce.wellShaped c -> Debounce.timely c ->
  exists c',
    stateManager (handle defaultStorageObject b e)
    = managerWith defaultStorageObject variant c' /\
    Debounce.wellShaped c' /\ Debounce.timely c'.
Proof.
  intros [loaded registered m ph calls] e c Hm Hs Ht. cbn [stateManager] in Hm. subst m.
  assert (forall w, exists c',
             managerWith defaultStorageObject variant (set_world w c)
             = managerWith defaultStorageObject variant c' /\
             Debounce.wellShaped c' /\ Debounce.timely c') as Hworld.
  { intros w. exists (set_world w c). split; [reflexivity|].
    split; apply set_world_shape; assumption. }
  assert (exists c',
             managerWith defaultStorageObject variant c
             = managerWith defaultStorageObject variant c' /\
             Debounce.wellShaped c' /\ Debounce.timely c') as Hsame
    by (exists c; auto).
  destruct e; cbn [handle phase storageLoaded autoSaveEffectRegistered stateManager saveCalls].
  - (* LoadSettles *)
    destruct ph; try exact Hsame.
    unfold load, worldOf, managerWith. cbn [loadCallback ctl Manager.variant].
    destruct (loadState defaultStorageObject (env (Debounce.world c))) as [outcome v].
    destruct (await outcome); cbn [stateManager]; apply Hworld.
  - (* LoaderResumes *)
    destruct ph as [|[|err]|]; try exact Hsame.
    + destruct (storage_set _ _) as [outcome bk]. cbn [stateManager]. apply Hworld.
    + cbn [stateManager]. apply Hworld.
  - (* InitialiseStorageAutoSave *)
    destruct registered; exact Hsame.
  - (* EffectRuns *)
    destruct registered; [|exact Hsame].
    destruct loaded; cbn [negb]; [|exact Hsame].
    cbn [stateManager].
    exists (Debounce.debounced (moduleSave variant) moduleOptions tt c).
    split; [reflexivity|]. split.
    + apply DebounceFacts.debounced_wellShaped. exact Hs.
    + apply DebounceFacts.debounced_timely. exact Ht.
  - (* Mutate *)
    cbn [stateManager set_manager]. apply Hworld.
  - (* Elapse *)
    cbn [stateManager set_manager].
    exists (Debounce.sleep (moduleSave variant) moduleOptions d c).
    split; [reflexivity|]. split.
    + apply DebounceFacts.advanceTo_wellShaped. exact Hs.
    + apply DebounceLaws.sleep_timely; assumption.
  - (* BackendFault *)
    cbn [stateManager set_manager]. apply Hworld.
Qed.

Lemma play_manager : forall events t0 v0,
  exists c,
    stateManager (play defaultStorageObject events (init defaultStorageObject variant t0 v0))
    = managerWith defaultStorageObject variant c /\
    Debounce.wellShaped c /\ Debounce.timely c.
Proof.
  intros events t0 v0. induction events as [|e events IH] using rev_ind.
  - eexists. split; [reflexivity|]. split.
    + apply DebounceFacts.initial_wellShaped.
    + intros ? [].
  - rewrite BindingFacts.play_snoc. destruct IH as (c & Hm & Hs & Ht).
    exact (handle_manager _ e c Hm Hs Ht).
Qed.

(** *** Auto-save *)

Lemma effect_arms : forall loaded_phase calls c,
  Debounce.wellShaped c -> Debounce.timely c ->
  let b := mkModule true true (managerWith defaultStorageObject variant c)
                    loaded_phase calls in
  exists c',
    handle defaultStorageObject b EffectRuns
    = mkModule true true (managerWith defaultStorageObject variant c') loaded_phase
               (S calls) /\
    Debounce.wellShaped c' /\ Debounce.timely c' /\
    Debounce.pendingArgs c' = Some tt /\
    (exists t, In t (Debounce.timers c') /\ Debounce.due t <= Debounce.clock c' + 500) /\
    Debounce.world c' = Debounce.world c.
Proof.
  intros ph calls c Hs Ht b.
  exists (Debounce.debounced (moduleSave variant) moduleOptions tt c).
  split; [reflexivity|].
  assert (Debounce.immediate moduleOptions = false) as Him by reflexivity.
  destruct (DebounceLaws.call_arms_trailing (moduleSave variant) moduleOptions tt c Him)
    as (Harmed & Hpa & _ & Hw & Hc).
  split; [apply DebounceFacts.debounced_wellShaped; exact Hs|].
  split; [apply DebounceFacts.debounced_timely; exact Ht|].
  split; [exact Hpa|]. split; [|exact Hw].
  eexists. split; [exact Harmed|]. cbn [Debounce.due]. rewrite Hc.
  change (Debounce.delay moduleOptions) with 500. lia.
Qed.

Lemma burst_of_changes : forall changes loaded_phase calls c,
  Forall (fun e => e = EffectRuns \/ exists key value, e = Mutate key value) changes ->
  Debounce.wellShaped c -> Debounce.timely c ->
  let b := mkModule true true (managerWith defaultStorageObject variant c)
                    loaded_phase calls in
  exists c' calls',
    play defaultStorageObject (EffectRuns :: changes) b
    = mkModule true true (managerWith defaultStorageObject variant c') loaded_phase calls' /\
    Debounce.wellShaped c' /\ Debounce.timely c' /\
    Debounce.pendingArgs c' = Some tt /\
    (exists t, In t (Debounce.timers c') /\ Debounce.due t <= Debounce.clock c' + 500) /\
    env (Debounce.world c') = env (Debounce.world c).
Proof.
  intros changes ph calls c Hch Hs Ht b.
  induction changes as [|e changes IH] using rev_ind.
  - destruct (effect_arms ph calls c Hs Ht) as (c' & E & H1 & H2 & H3 & H4 & H5).
    exists c', (S calls). split; [exact E|]. rewrite H5. auto.
  - apply Forall_app in Hch. destruct Hch as [Hch He].
    inversion He as [|? ? Hkind _]; subst.
    destruct (IH Hch) as (c1 & calls1 & E & H1 & H2 & H3 & H4 & H5).
    change (EffectRuns :: changes ++ [e]) with ((EffectRuns :: changes) ++ [e]).
    rewrite BindingFacts.play_snoc, E.
    destruct Hkind as [->|(key & value & ->)].
    + destruct (effect_arms ph calls1 c1 H1 H2) as (c' & E' & G1 & G2 & G3 & G4 & G5).
      exists c', (S calls1). split; [exact E'|]. rewrite G5. auto.
    + exists (set_world (mkWorld (setProp key value (state (Debounce.world c1)))
                                 (env (Debounce.world c1))) c1), calls1.
      split; [reflexivity|]. split; [apply set_world_shape; exact H1|].
      split; [apply set_world_shape; exact H2|]. auto.
Qed.

(** X19 -- once the load has succeeded and the effect is registered, a burst
    of changes made in one turn leads to one write of the state they leave
    behind.  However often the effect runs and whatever is assigned to
    [state] after its first run, nothing is written during the burst; when
    500 ms have passed the storage area's [set] has been called exactly
    once, with the state as it was when the timer fired, the latest changes
    included; and then nothing is pending. *)
Theorem autosave_writes_latest_state : forall t0 v0 events changes d,
  let b := play defaultStorageObject events (init defaultStorageObject variant t0 v0) in
  storageLoaded b = true -> autoSaveEffectRegistered b = true -> 500 <= d ->
  Forall (fun e => e = EffectRuns \/ exists key value, e = Mutate key value) changes ->
  let b1 := play defaultStorageObject (EffectRuns :: changes) b in
  let b2 := handle defaultStorageObject b1 (Elapse d) in
  persisted b1 = persisted b /\
  persisted b2 = persisted b ++ [state (worldOf (stateManager b1))] /\
  Debounce.idle (ctl (stateManager b2)) /\
  unhandledRejections (env (worldOf (stateManager b2)))
  = unhandledRejections (env (worldOf (stateManager b))).
Proof.
  intros t0 v0 events changes d b Hloaded Hreg Hd Hch b1 b2.
  destruct (play_manager events t0 v0) as (c & Hm & Hs & Ht). fold b in Hm.
  subst b2 b1. destruct b as [loaded registered m ph calls].
  cbn [storageLoaded autoSaveEffectRegistered stateManager] in *. subst loaded registered m.
  destruct (burst_of_changes changes ph calls c Hch Hs Ht)
    as (c1 & calls1 & E & H1 & H2 & H3 & (t & Hin & Hdue) & Henv).
  rewrite E.
  pose (fn := moduleSave variant).
  pose (o := moduleOptions).
  change (writes (backend (env (Debounce.world c1)))
          = writes (backend (env (Debounce.world c))) /\
          writes (backend (env (Debounce.world (Debounce.sleep fn o d c1))))
          = writes (backend (env (Debounce.world c))) ++ [state (Debounce.world c1)] /\
          Debounce.idle (Debounce.sleep fn o d c1) /\
          unhandledRejections (env (Debounce.world (Debounce.sleep fn o d c1)))
          = unhandledRejections (env (Debounce.world c))).
  assert (Debounce.immediate o = false) as Him by reflexivity.
  destruct (DebounceLaws.sleep_flushes fn o tt d t c1 Him H1 H2 H3 Hin)
    as (at_ & _ & _ & Hw & Hidle & _); [lia|].
  rewrite Hw. unfold fn, moduleSave. rewrite saveClosure_saveState. cbn [state env].
  destruct (saveState_outcome (state (Debounce.world c1)) (env (Debounce.world c1)))
    as (_ & Hwr & _ & Hun).
  rewrite Hwr, Hun, Henv. auto.
Qed.

(** *** Without [initialiseStorageAutoSave] *)

Lemma quiet_step : forall v0 b e,
  e <> InitialiseStorageAutoSave ->
  loadCallback (stateManager b) = loadState defaultStorageObject ->
  autoSaveEffectRegistered b = false ->
  saveCalls b = 0%nat ->
  Debounce.executions (ctl (stateManager b)) = [] ->
  Debounce.timers (ctl (stateManager b)) = [] ->
  (phase b = LoaderDone \/ persisted b = writes (backend v0)) ->
  (List.length (persisted b) <= S (List.length (writes (backend v0))))%nat ->
  let b' := handle defaultStorageObject b e in
  loadCallback (stateManager b') = loadState defaultStorageObject /\
  autoSaveEffectRegistered b' = false /\
  saveCalls b' = 0%nat /\
  Debounce.executions (ctl (stateManager b')) = [] /\
  Debounce.timers (ctl (stateManager b')) = [] /\
  (phase b' = LoaderDone \/ persisted b' = writes (backend v0)) /\
  (List.length (persisted b') <= S (List.length (writes (backend v0))))%nat.
Proof.
  intros v0 [loaded registered m ph calls] e He Hcb Hreg Hcalls Hex Hts Hph Hlen.
  unfold persisted in *.
  cbn [stateManager autoSaveEffectRegistered saveCalls phase] in *. subst registered calls.
  destruct e; try contradiction;
    cbn [handle phase storageLoaded autoSaveEffectRegistered stateManager saveCalls negb
         set_manager].
  - (* LoadSettles *)
    destruct ph; try (cbn; auto 10; fail).
    destruct (BindingFacts.load_keeps_controller defaultStorageObject m Hcb)
      as (Hw & Hex' & Hts' & Hcb').
    destruct (load m) as [r m']. cbn [snd stateManager autoSaveEffectRegistered saveCalls
                                           phase] in *.
    destruct Hph as [Hph|Hph]; [discriminate|].
    rewrite Hw, Hex', Hts', Hcb'. auto 10.
  - (* LoaderResumes *)
    destruct ph as [|[|err]|]; try (cbn; auto 10; fail).
    destruct Hph as [Hph|Hph]; [discriminate|].
    unfold storage_set.
    destruct (fault (backend (env (worldOf m)))); cbn; rewrite ?Hph, ?length_app; cbn;
      repeat split; auto; lia.
  - (* EffectRuns *)
    cbn. auto 10.
  - (* Mutate *)
    cbn. auto 10.
  - (* Elapse *)
    destruct (BindingFacts.sleep_without_timers d m Hts) as (Hw & Hex' & Hts' & Hcb').
    cbn [stateManager autoSaveEffectRegistered saveCalls phase].
    rewrite Hw, Hex', Hts', Hcb'. auto 10.
  - (* BackendFault *)
    cbn. auto 10.
Qed.

(** X20 -- as long as no component has called [initialiseStorageAutoSave]
    the module never saves: whatever is mutated and however long one waits,
    [save()] is not called, no timer is armed, and the only write the
    storage area can have seen is the loader's clean-up. *)
Theorem no_autosave_without_initialise : forall t0 v0 events,
  Forall (fun e => e <> InitialiseStorageAutoSave) events ->
  let b := play defaultStorageObject events (init defaultStorageObject variant t0 v0) in
  saveCalls b = 0%nat /\
  Debounce.executions (ctl (stateManager b)) = [] /\
  Debounce.timers (ctl (stateManager b)) = [] /\
  (List.length (persisted b) <= S (List.length (writes (backend v0))))%nat.
Proof.
  intros t0 v0 events Hev.
  assert (let b := play defaultStorageObject events
                        (init defaultStorageObject variant t0 v0) in
          loadCallback (stateManager b) = loadState defaultStorageObject /\
          autoSaveEffectRegistered b = false /\
          saveCalls b = 0%nat /\
          Debounce.executions (ctl (stateManager b)) = [] /\
          Debounce.timers (ctl (stateManager b)) = [] /\
          (phase b = LoaderDone \/ persisted b = writes (backend v0)) /\
          (List.length (persisted b) <= S (List.length (writes (backend v0))))%nat) as H.
  { induction events as [|e events IH] using rev_ind.
    - cbn. repeat split; auto.
    - apply Forall_app in Hev. destruct Hev as [Hev He].
      inversion He as [|? ? Hne _]; subst.
      rewrite BindingFacts.play_snoc.
      destruct (IH Hev) as (H1 & H2 & H3 & H4 & H5 & H6 & H7).
      exact (quiet_step v0 _ e Hne H1 H2 H3 H4 H5 H6 H7). }
  cbv zeta in H |- *. destruct H as (_ & _ & H3 & H4 & H5 & _ & H7). auto.
Qed.

End Laws.

Lemma failed_initial_load_is_logged_witness :
  let v0 := mkEnv [] (mkBackend [] [] (Some "storage unavailable")) [] in
  console (env (worldOf (stateManager
     (play sampleDefaults [LoadSettles; LoaderResumes]
           (init sampleDefaults V1 1000000 v0)))))
  = [ConsoleError "Failed to load from storage:" "storage unavailable";
     ConsoleError "StateManager: Failed to load state from storage:" "storage unavailable";
     ConsoleError "Failed to load from storage:" "storage unavailable"].
Proof.
  intros v0.
  exact (proj2 (proj2 (proj2 (proj2
           (failed_initial_load_is_logged sampleDefaults V1 1000000 v0
              "storage unavailable" eq_refl))))).
Defined.


Lemma autosave_writes_latest_state_witness :
  let b := play sampleDefaults
                [LoadSettles; LoaderResumes; InitialiseStorageAutoSave; EffectRuns;
                 Elapse 200]
                (init sampleDefaults V2 1000000 emptyEnv) in
  persisted (play sampleDefaults
                  [EffectRuns; Mutate "theme" (VString "dark"); EffectRuns;
                   Mutate "vol" (VNumber 9%float); Elapse 500]
                  b)
  = [sampleDefaults; [("theme", VString "dark"); ("vol", VNumber 9%float)]].
Proof.
  intros b.
  refine (proj1 (proj2
            (autosave_writes_latest_state sampleDefaults V2 1000000 emptyEnv
               [LoadSettles; LoaderResumes; InitialiseStorageAutoSave; EffectRuns;
                Elapse 200]
               [Mutate "theme" (VString "dark"); EffectRuns; Mutate "vol" (VNumber 9%float)]
               500 eq_refl eq_refl _ _))).
  - intros E. discriminate E.
  - constructor; [right; eauto|].
    constructor; [left; reflexivity|].
    constructor; [right; eauto|constructor].
Defined.

Lemma no_autosave_without_initialise_witness :
  let b := play sampleDefaults
                [LoadSettles; LoaderResumes; Mutate "theme" (VString "dark"); EffectRuns;
                 Elapse 5000]
                (init sampleDefaults V1 1000000 emptyEnv) in
  saveCalls b = 0%nat /\ Debounce.timers (ctl (stateManager b)) = [].
Proof.
  intros b.
  destruct (no_autosave_without_initialise sampleDefaults V1 1000000 emptyEnv
              [LoadSettles; LoaderResumes; Mutate "theme" (VString "dark"); EffectRuns;
               Elapse 5000])
    as (H1 & _ & H3 & _).
  - repeat constructor; discriminate.
  - split; [exact H1|exact H3].
Defined.

Lemma failed_load_disables_saving_witness :
  let v0 := mkEnv [] (mkBackend [] [] (Some "storage unavailable")) [] in
  persisted
    (play sampleDefaults
       ([LoadSettles; LoaderResumes]
        ++ [InitialiseStorageAutoSave; BackendFault None;
            Mutate "theme" (VString "dark"); EffectRuns; Elapse 2000])
       (init sampleDefaults V1 1000000 v0))
  = [].
Proof.
  intros v0.
  exact (proj1 (proj2 (proj2
           (failed_load_disables_saving sampleDefaults V1 1000000 v0 "storage unavailable"
              [InitialiseStorageAutoSave; BackendFault None;
               Mutate "theme" (VString "dark"); EffectRuns; Elapse 2000]
              eq_refl)))).
Defined.

End BindingLaws.
